(** * Identity-card aggregation of the playground login component

    A shallow embedding of [LoginComponent.loadIdentityCards],
    [LoginComponent.sortIdCards] and [LoginComponent.sortBy]
    (composer-playground, src/app/login/login.component.ts), together with
    the fragment of JavaScript they rely on: truthiness, relational
    comparison, insertion-ordered [Map]s and the [Array] methods [indexOf],
    [splice], [sort] and [unshift]. *)

From Stdlib Require Import String Ascii List ZArith Lia Bool.
From Stdlib Require Import Permutation Sorted.
Import ListNotations.

Local Open Scope string_scope.
Local Open Scope list_scope.
Local Open Scope Z_scope.

(** ** The JavaScript fragment *)

Module Js.

(** The values the comparator inspects: [undefined], a string, or an array
    of strings. *)
Inductive value : Type :=
| Undefined
| Str (s : string)
| Arr (l : list string).

Definition ofString (o : option string) : value :=
  match o with Some s => Str s | None => Undefined end.

Definition ofArray (o : option (list string)) : value :=
  match o with Some l => Arr l | None => Undefined end.

(** ToBoolean: [undefined] and the empty string are falsy, every object
    (so every array, the empty one too) is truthy. *)
Definition truthy (v : value) : bool :=
  match v with
  | Undefined => false
  | Str s => negb (s =? "")%string
  | Arr _ => true
  end.

(** ToPrimitive for the relational operators: a string is itself, an array
    is [Array.prototype.join] with a comma; [undefined] becomes NaN, for
    which no string stands. *)
Definition toPrimitive (v : value) : option string :=
  match v with
  | Undefined => None
  | Str s => Some s
  | Arr l => Some (String.concat "," l)
  end.

(** [a < b] and [a > b]: lexicographic order by code units on two strings
    (a [string] is read as the sequence of its code units), [false] as
    soon as NaN is involved. *)
Definition lt (a b : value) : bool :=
  match toPrimitive a, toPrimitive b with
  | Some x, Some y => (x <? y)%string
  | _, _ => false
  end.

Definition gt (a b : value) : bool := lt b a.

(** Completion of a call: a value, or a thrown [TypeError]. *)
Inductive error : Type := TypeError.

Inductive result (A : Type) : Type :=
| Ok (a : A)
| Throw (e : error).
Arguments Ok {A} a.
Arguments Throw {A} e.

Definition bind {A B : Type} (m : result A) (k : A -> result B) : result B :=
  match m with
  | Ok a => k a
  | Throw e => Throw e
  end.

(** Calling a method on what a lookup returned: [undefined.m()] throws. *)
Definition deref {A : Type} (o : option A) : result A :=
  match o with
  | Some a => Ok a
  | None => Throw TypeError
  end.

(** [x || d] where [x] is an object or [undefined]. *)
Definition orElse {A : Type} (o : option A) (d : A) : A :=
  match o with Some a => a | None => d end.

End Js.

Import Js.

Notation "x <- m ;; k" := (Js.bind m (fun x => k))
  (at level 61, m at next level, right associativity).

(** ** [Map]: string keys, insertion order kept *)

Module JsMap.

Definition t (V : Type) : Type := list (string * V).

Definition empty {V : Type} : t V := [].

Fixpoint get {V : Type} (m : t V) (k : string) : option V :=
  match m with
  | [] => None
  | (k', v) :: m' => if (k' =? k)%string then Some v else get m' k
  end.

Definition has {V : Type} (m : t V) (k : string) : bool :=
  match get m k with Some _ => true | None => false end.

(** [set] keeps the position of a key that is already there and appends a
    new one. *)
Fixpoint set {V : Type} (m : t V) (k : string) (v : V) : t V :=
  match m with
  | [] => [(k, v)]
  | (k', v') :: m' =>
      if (k' =? k)%string then (k', v) :: m' else (k', v') :: set m' k v
  end.

Definition keys {V : Type} (m : t V) : list string := map fst m.

Definition values {V : Type} (m : t V) : list V := map snd m.

(** [forEach] with a callback that rewrites each value in place and may
    throw. *)
Fixpoint forEach {V : Type} (f : V -> result V) (m : t V) : result (t V) :=
  match m with
  | [] => Ok []
  | (k, v) :: m' =>
      v' <- f v ;;
      r <- forEach f m' ;;
      Ok ((k, v') :: r)
  end.

End JsMap.

(** ** [Array] *)

Module JsArray.

Fixpoint indexOfFrom (x : string) (l : list string) (i : Z) : Z :=
  match l with
  | [] => -1
  | y :: l' => if (y =? x)%string then i else indexOfFrom x l' (i + 1)
  end.

Definition indexOf (l : list string) (x : string) : Z := indexOfFrom x l 0.

(** [l[i]]: [undefined] outside [0 .. length - 1]. *)
Definition at_ {A : Type} (l : list A) (i : Z) : option A :=
  if i <? 0 then None else nth_error l (Z.to_nat i).

(** [l.splice(start, deleteCount)], the array that is left.  A negative
    [start] counts from the end. *)
Definition splice {A : Type} (l : list A) (start deleteCount : Z) : list A :=
  let len := Z.of_nat (length l) in
  let actualStart :=
    if start <? 0 then Z.max (len + start) 0 else Z.min start len in
  let actualDeleteCount := Z.min (Z.max deleteCount 0) (len - actualStart) in
  firstn (Z.to_nat actualStart) l
    ++ skipn (Z.to_nat (actualStart + actualDeleteCount)) l.

Definition unshift {A : Type} (l : list A) (x : A) : list A := x :: l.

(** SortCompare: the comparator's answer through ToNumber, NaN (what
    [undefined] converts to) read as [+0]. *)
Definition sortCompare (v : option Z) : Z :=
  match v with Some z => z | None => 0 end.

(** [l.sort(comparefn)].  ECMAScript asks for a stable sort, and a stable
    sort under a consistent comparator has one possible outcome; it is
    computed here by insertion from the right.  A comparator that throws
    aborts the sort. *)
Fixpoint insert {A : Type} (comparefn : A -> A -> result (option Z))
    (x : A) (l : list A) : result (list A) :=
  match l with
  | [] => Ok [x]
  | y :: l' =>
      v <- comparefn x y ;;
      if 0 <? sortCompare v
      then (r <- insert comparefn x l' ;; Ok (y :: r))
      else Ok (x :: y :: l')
  end.

Fixpoint sort {A : Type} (comparefn : A -> A -> result (option Z))
    (l : list A) : result (list A) :=
  match l with
  | [] => Ok []
  | x :: l' => r <- sort comparefn l' ;; insert comparefn x r
  end.

End JsArray.

(** ** Identity cards and the component *)

(** A connection profile: the [name] shown on screen, and the [type] that
    the qualified name is made from. *)
Record ConnectionProfile : Type := mkConnectionProfile {
  name : string;
  type : string
}.

(** What the component reads from an [IdCard] of composer-common; [None] is
    an accessor returning [undefined]. *)
Record IdCard : Type := mkIdCard {
  getName : option string;
  getBusinessNetworkName : option string;
  getRoles : option (list string);
  getConnectionProfile : ConnectionProfile
}.

(** The fields of [LoginComponent].  [connectionProfileRefs] is declared
    [string[]] but can hold [undefined], hence the [option]. *)
Record LoginComponent : Type := mkLoginComponent {
  usingLocally : bool;
  connectionProfileRefs : list (option string);
  connectionProfileNames : JsMap.t string;
  connectionProfiles : JsMap.t ConnectionProfile;
  idCardRefs : JsMap.t (list string);
  idCards : JsMap.t IdCard;
  showDeployNetwork : bool;
  editingConnectionProfile : option ConnectionProfile;
  creatingIdCard : bool;
  showSubScreen : bool
}.

(** [sortBy(aName, bName)]. *)
Definition sortBy (aName bName : value) : Z :=
  if negb (truthy aName) && negb (truthy bName) then 0
  else if negb (truthy aName) && truthy bName then -1
  else if truthy aName && negb (truthy bName) then 1
  else if Js.lt aName bName then -1
  else if Js.gt aName bName then 1
  else 0.

(** [identityCardService.getIdentityCard(ref)]: the service hands out the
    cards of the mapping that [getIdentityCards] resolved to. *)
Definition getIdentityCard (store : JsMap.t IdCard) (ref : string)
  : option IdCard :=
  JsMap.get store ref.

(** [sortIdCards(a, b)].  The last statement assigns [result] and the
    function ends without a [return]: the call evaluates to [undefined],
    which is [None] here. *)
Definition sortIdCards (store : JsMap.t IdCard) (a b : string)
  : result (option Z) :=
  cardA <- deref (getIdentityCard store a) ;;
  cardB <- deref (getIdentityCard store b) ;;
  let aBusinessNetwork := ofString (getBusinessNetworkName cardA) in
  let bBusinessNetwork := ofString (getBusinessNetworkName cardB) in
  let aName := ofString (getName cardA) in
  let bName := ofString (getName cardB) in
  let aRoles := ofArray (getRoles cardA) in
  let bRoles := ofArray (getRoles cardB) in
  let result := sortBy aBusinessNetwork bBusinessNetwork in
  if negb (result =? 0) then Ok (Some result) else
  let result := sortBy aRoles bRoles in
  if negb (result =? 0) then Ok (Some result) else
  let result := sortBy aName bName in
  Ok None.

(** Assignments to the fields that [loadIdentityCards] writes. *)
Definition set_idCards (v : JsMap.t IdCard) (this : LoginComponent)
  : LoginComponent :=
  mkLoginComponent (usingLocally this) (connectionProfileRefs this)
    (connectionProfileNames this) (connectionProfiles this) (idCardRefs this)
    v (showDeployNetwork this) (editingConnectionProfile this)
    (creatingIdCard this) (showSubScreen this).

Definition set_connectionProfileNames (v : JsMap.t string)
    (this : LoginComponent) : LoginComponent :=
  mkLoginComponent (usingLocally this) (connectionProfileRefs this)
    v (connectionProfiles this) (idCardRefs this)
    (idCards this) (showDeployNetwork this) (editingConnectionProfile this)
    (creatingIdCard this) (showSubScreen this).

Definition set_connectionProfiles (v : JsMap.t ConnectionProfile)
    (this : LoginComponent) : LoginComponent :=
  mkLoginComponent (usingLocally this) (connectionProfileRefs this)
    (connectionProfileNames this) v (idCardRefs this)
    (idCards this) (showDeployNetwork this) (editingConnectionProfile this)
    (creatingIdCard this) (showSubScreen this).

Definition set_idCardRefs (v : JsMap.t (list string)) (this : LoginComponent)
  : LoginComponent :=
  mkLoginComponent (usingLocally this) (connectionProfileRefs this)
    (connectionProfileNames this) (connectionProfiles this) v
    (idCards this) (showDeployNetwork this) (editingConnectionProfile this)
    (creatingIdCard this) (showSubScreen this).

Definition set_connectionProfileRefs (v : list (option string))
    (this : LoginComponent) : LoginComponent :=
  mkLoginComponent (usingLocally this) v
    (connectionProfileNames this) (connectionProfiles this) (idCardRefs this)
    (idCards this) (showDeployNetwork this) (editingConnectionProfile this)
    (creatingIdCard this) (showSubScreen this).

(** The reference of the profile that is moved to the front. *)
Definition webDefault : string := "web-$default".

Section Login.

(** [identityCardService.getQualifiedProfileName]: the service is not part
    of the component; any function of the profile will do. *)
Variable getQualifiedProfileName : ConnectionProfile -> string.

(** The callback of [Array.from(cards.keys()).map(...)]: it registers a
    profile the first time its reference is met and returns the pair
    [[connectionProfileRef, cardRef]]. *)
Definition tagCardRef (cards : JsMap.t IdCard) (cardRef : string)
    (this : LoginComponent) : result ((string * string) * LoginComponent) :=
  card <- deref (JsMap.get cards cardRef) ;;
  let connectionProfile := getConnectionProfile card in
  let connectionProfileRef := getQualifiedProfileName connectionProfile in
  let this :=
    if negb (JsMap.has (connectionProfileNames this) connectionProfileRef)
    then
      let this :=
        set_connectionProfileNames
          (JsMap.set (connectionProfileNames this) connectionProfileRef
             (name connectionProfile)) this in
      set_connectionProfiles
        (JsMap.set (connectionProfiles this) connectionProfileRef
           connectionProfile) this
    else this in
  Ok ((connectionProfileRef, cardRef), this).

Fixpoint mapCardRefs (cards : JsMap.t IdCard) (cardRefs : list string)
    (this : LoginComponent)
  : result (list (string * string) * LoginComponent) :=
  match cardRefs with
  | [] => Ok ([], this)
  | cardRef :: rest =>
      r <- tagCardRef cards cardRef this ;;
      rs <- mapCardRefs cards rest (snd r) ;;
      Ok (fst r :: fst rs, snd rs)
  end.

(** The callback of [reduce]. *)
Definition groupCardRef (prev : JsMap.t (list string)) (cur : string * string)
  : JsMap.t (list string) :=
  let curCardRefs := orElse (JsMap.get prev (fst cur)) [] in
  let cardRef := snd cur in
  JsMap.set prev (fst cur) (curCardRefs ++ [cardRef]).

(** The comparator handed to [unsortedConnectionProfiles.sort]: no
    [return] when neither name is smaller. *)
Definition compareProfileNames (this : LoginComponent) (a b : string)
  : option Z :=
  let aName := ofString (JsMap.get (connectionProfileNames this) a) in
  let bName := ofString (JsMap.get (connectionProfileNames this) b) in
  if Js.lt aName bName then Some (-1)
  else if Js.gt aName bName then Some 1
  else None.

(** [loadIdentityCards], from the moment [getIdentityCards] has resolved
    to [cards].  A [Throw] is what the promise's catch handler passes to
    the alert service. *)
Definition loadIdentityCards (cards : JsMap.t IdCard) (this : LoginComponent)
  : result LoginComponent :=
  let this := set_idCards cards this in
  let this := set_connectionProfileNames JsMap.empty this in
  let this := set_connectionProfiles JsMap.empty this in
  tagged <- mapCardRefs cards (JsMap.keys cards) this ;;
  let this := snd tagged in
  let newCardRefs := fold_left groupCardRef (fst tagged) JsMap.empty in
  newCardRefs <- JsMap.forEach (JsArray.sort (sortIdCards cards)) newCardRefs ;;
  let this := set_idCardRefs newCardRefs this in
  let unsortedConnectionProfiles := JsMap.keys (connectionProfileNames this) in
  let indexOfWeb := JsArray.indexOf unsortedConnectionProfiles webDefault in
  let webProfile := JsArray.at_ unsortedConnectionProfiles indexOfWeb in
  let unsortedConnectionProfiles :=
    JsArray.splice unsortedConnectionProfiles indexOfWeb 1 in
  unsortedConnectionProfiles <-
    JsArray.sort (fun a b => Ok (compareProfileNames this a b))
      unsortedConnectionProfiles ;;
  let unsortedConnectionProfiles :=
    JsArray.unshift (map Some unsortedConnectionProfiles) webProfile in
  Ok (set_connectionProfileRefs unsortedConnectionProfiles this).

End Login.

(** Modelled from the spec: the body of [getQualifiedProfileName], which
    lives in the identity-card service; the reference is derived from the
    profile's type and name. *)
Definition qualifiedProfileName (connectionProfile : ConnectionProfile)
  : string :=
  (type connectionProfile ++ "-" ++ name connectionProfile)%string.

(** ** The methods that drive the sub screens *)

Definition set_usingLocally (v : bool) (this : LoginComponent)
  : LoginComponent :=
  mkLoginComponent v (connectionProfileRefs this)
    (connectionProfileNames this) (connectionProfiles this) (idCardRefs this)
    (idCards this) (showDeployNetwork this) (editingConnectionProfile this)
    (creatingIdCard this) (showSubScreen this).

Definition set_showDeployNetwork (v : bool) (this : LoginComponent)
  : LoginComponent :=
  mkLoginComponent (usingLocally this) (connectionProfileRefs this)
    (connectionProfileNames this) (connectionProfiles this) (idCardRefs this)
    (idCards this) v (editingConnectionProfile this)
    (creatingIdCard this) (showSubScreen this).

Definition set_editingConnectionProfile (v : option ConnectionProfile)
    (this : LoginComponent) : LoginComponent :=
  mkLoginComponent (usingLocally this) (connectionProfileRefs this)
    (connectionProfileNames this) (connectionProfiles this) (idCardRefs this)
    (idCards this) (showDeployNetwork this) v
    (creatingIdCard this) (showSubScreen this).

Definition set_creatingIdCard (v : bool) (this : LoginComponent)
  : LoginComponent :=
  mkLoginComponent (usingLocally this) (connectionProfileRefs this)
    (connectionProfileNames this) (connectionProfiles this) (idCardRefs this)
    (idCards this) (showDeployNetwork this) (editingConnectionProfile this)
    v (showSubScreen this).

Definition set_showSubScreen (v : bool) (this : LoginComponent)
  : LoginComponent :=
  mkLoginComponent (usingLocally this) (connectionProfileRefs this)
    (connectionProfileNames this) (connectionProfiles this) (idCardRefs this)
    (idCards this) (showDeployNetwork this) (editingConnectionProfile this)
    (creatingIdCard this) v.

(** [editConnectionProfile(connectionProfile)]; [None] is a call without a
    profile. *)
Definition editConnectionProfile (connectionProfile : option ConnectionProfile)
    (this : LoginComponent) : LoginComponent :=
  let this := set_showSubScreen true this in
  set_editingConnectionProfile connectionProfile this.

(** [closeSubView()]; [delete this.editingConnectionProfile] leaves the
    field without a profile. *)
Definition closeSubView (this : LoginComponent) : LoginComponent :=
  let this := set_showSubScreen false this in
  let this := set_showDeployNetwork false this in
  let this := set_creatingIdCard false this in
  set_editingConnectionProfile None this.

(** [createIdCard()]. *)
Definition createIdCard (this : LoginComponent) : LoginComponent :=
  let this := set_showSubScreen true this in
  set_creatingIdCard true this.

Section Screens.

Variable getQualifiedProfileName : ConnectionProfile -> string.

(** [identityCardService.getIdentityCardRefsWithProfileAndRole]: the card
    references the service knows for a profile reference and a role. *)
Variable getIdentityCardRefsWithProfileAndRole : string -> string -> list string.

(** [ngOnInit()], once [initialize()] has resolved; [isWebOnly] is what
    the initialization service answers. *)
Definition ngOnInit (isWebOnly : bool) (cards : JsMap.t IdCard)
    (this : LoginComponent) : result LoginComponent :=
  let this := set_usingLocally (negb isWebOnly) this in
  loadIdentityCards getQualifiedProfileName cards this.

(** [finishedCardCreation(event)]; [event] stands for the truthiness of
    the argument, [cards] for what [getIdentityCards] resolves to. *)
Definition finishedCardCreation (event : bool) (cards : JsMap.t IdCard)
    (this : LoginComponent) : result LoginComponent :=
  if event then
    let this := closeSubView this in
    loadIdentityCards getQualifiedProfileName cards this
  else
    let this := closeSubView this in
    Ok this.

(** [canDeploy(connectionProfileRef)]. *)
Definition canDeploy (connectionProfileRef : string) : bool :=
  let peerCardRef :=
    JsArray.at_
      (getIdentityCardRefsWithProfileAndRole connectionProfileRef "PeerAdmin")
      0 in
  if negb (truthy (ofString peerCardRef)) then false else
  let channelCardRef :=
    JsArray.at_
      (getIdentityCardRefsWithProfileAndRole connectionProfileRef
         "ChannelAdmin") 0 in
  if negb (truthy (ofString channelCardRef)) then false else
  true.

(** [deployNetwork(connectionProfileRef)]: the first component is the
    argument of the call [setCurrentIdentityCard(peerCardRef)]. *)
Definition deployNetwork (connectionProfileRef : string)
    (this : LoginComponent) : option string * LoginComponent :=
  let peerCardRef :=
    JsArray.at_
      (getIdentityCardRefsWithProfileAndRole connectionProfileRef "PeerAdmin")
      0 in
  let this := set_showSubScreen true this in
  let this := set_showDeployNetwork true this in
  (peerCardRef, this).

(** [finishedDeploying()]. *)
Definition finishedDeploying (cards : JsMap.t IdCard) (this : LoginComponent)
  : result LoginComponent :=
  let this := set_showSubScreen false this in
  let this := set_showDeployNetwork false this in
  loadIdentityCards getQualifiedProfileName cards this.

(** The calls that assign fields of the component.  [importIdentity] and
    [removeIdentity] reach the fields through [loadIdentityCards] only;
    [changeIdentity] and [exportIdentity] assign none. *)
Inductive action : Type :=
| NgOnInit (isWebOnly : bool) (cards : JsMap.t IdCard)
| LoadIdentityCards (cards : JsMap.t IdCard)
| EditConnectionProfile (connectionProfile : option ConnectionProfile)
| CloseSubView
| CreateIdCard
| FinishedCardCreation (event : bool) (cards : JsMap.t IdCard)
| DeployNetwork (connectionProfileRef : string)
| FinishedDeploying (cards : JsMap.t IdCard).

Definition perform (a : action) (this : LoginComponent)
  : result LoginComponent :=
  match a with
  | NgOnInit isWebOnly cards => ngOnInit isWebOnly cards this
  | LoadIdentityCards cards =>
      loadIdentityCards getQualifiedProfileName cards this
  | EditConnectionProfile connectionProfile =>
      Ok (editConnectionProfile connectionProfile this)
  | CloseSubView => Ok (closeSubView this)
  | CreateIdCard => Ok (createIdCard this)
  | FinishedCardCreation event cards => finishedCardCreation event cards this
  | DeployNetwork connectionProfileRef =>
      Ok (snd (deployNetwork connectionProfileRef this))
  | FinishedDeploying cards => finishedDeploying cards this
  end.

Fixpoint performAll (actions : list action) (this : LoginComponent)
  : result LoginComponent :=
  match actions with
  | [] => Ok this
  | a :: rest => this <- perform a this ;; performAll rest this
  end.

End Screens.

(** A service that knows one peer administrator and one channel
    administrator card for every profile. *)
Definition sampleRoleRefs (connectionProfileRef role : string) : list string :=
  if (role =? "PeerAdmin")%string then ["peer-card"]%string
  else if (role =? "ChannelAdmin")%string then ["channel-card"]%string
  else [].

(** ** The cards of composer-common *)



(** ** Sample inputs *)

Definition blank : LoginComponent :=
  mkLoginComponent false [] [] [] [] [] false None false false.

Definition orgA : ConnectionProfile := mkConnectionProfile "Org A profile" "hlfv1".
Definition orgB : ConnectionProfile := mkConnectionProfile "Org B profile" "hlfv1".
Definition web : ConnectionProfile := mkConnectionProfile "$default" "web".

(** Two cards of one network profile and one of the web profile. *)
Definition exCards : JsMap.t IdCard :=
  [ ("c1", mkIdCard (Some "alice") (Some "net-a") (Some []) orgA);
    ("c2", mkIdCard (Some "bob") (Some "net-a") (Some ["PeerAdmin"]) orgA);
    ("c3", mkIdCard (Some "eve") None (Some []) web) ]%string.

(** Cards of two network profiles, none of the web profile. *)
Definition noWebCards : JsMap.t IdCard :=
  [ ("c1", mkIdCard (Some "alice") (Some "net-a") (Some []) orgA);
    ("c2", mkIdCard (Some "bob") (Some "net-b") (Some []) orgB) ]%string.

(** Two cards that differ in their names only. *)
Definition tieCards : JsMap.t IdCard :=
  [ ("c1", mkIdCard (Some "bob") (Some "net-a") (Some ["PeerAdmin"]) orgA);
    ("c2", mkIdCard (Some "alice") (Some "net-a") (Some ["PeerAdmin"]) orgA)
  ]%string.


(** ** Auxiliary definitions for the statements *)

(** Insertion sort under a comparator that cannot throw; [after x y] says
    that [x] has to go behind [y]. *)
Fixpoint insertBy {A : Type} (after : A -> A -> bool) (x : A) (l : list A)
  : list A :=
  match l with
  | [] => [x]
  | y :: l' => if after x y then y :: insertBy after x l' else x :: y :: l'
  end.

Fixpoint isort {A : Type} (after : A -> A -> bool) (l : list A) : list A :=
  match l with
  | [] => []
  | x :: l' => insertBy after x (isort after l')
  end.

(** [a] occurs somewhere in front of [b]. *)
Definition before (a b : string) (l : list string) : Prop :=
  exists l1 l2 l3, l = l1 ++ a :: l2 ++ b :: l3.

(** Order of first encounter: [discover] is what [has]/[set] do to the key
    sequence of [connectionProfileNames] when a reference is met. *)
Definition discover (seen : list string) (ref : string) : list string :=
  if existsb (String.eqb ref) seen then seen else seen ++ [ref].

Definition firstSeen (refs : list string) : list string :=
  fold_left discover refs [].

(** The fields of [c] that the first pass of [loadIdentityCards] works on,
    put into the component [this]. *)
Definition graft (this c : LoginComponent) : LoginComponent :=
  mkLoginComponent (usingLocally this) (connectionProfileRefs this)
    (connectionProfileNames c) (connectionProfiles c) (idCardRefs this)
    (idCards c) (showDeployNetwork this) (editingConnectionProfile this)
    (creatingIdCard this) (showSubScreen this).

(** The fields of [c] that [loadIdentityCards] computes, put into the
    component [this]. *)
Definition carry (this c : LoginComponent) : LoginComponent :=
  mkLoginComponent (usingLocally this) (connectionProfileRefs c)
    (connectionProfileNames c) (connectionProfiles c) (idCardRefs c)
    (idCards c) (showDeployNetwork this) (editingConnectionProfile this)
    (creatingIdCard this) (showSubScreen this).

(** The pair [(connectionProfileRef, cardRef)] is the one that the card
    stored under [cardRef] gives. *)
Definition tagOf (getQualifiedProfileName : ConnectionProfile -> string)
    (cards : JsMap.t IdCard) (t : string * string) : Prop :=
  exists card, JsMap.get cards (snd t) = Some card
    /\ getQualifiedProfileName (getConnectionProfile card) = fst t.

(** [l] lists the profile references of the cards, taken in the order of
    the mapping, each at its first occurrence only. *)
Definition discoveryOrder (getQualifiedProfileName : ConnectionProfile -> string)
    (cards : JsMap.t IdCard) (l : list string) : Prop :=
  exists tagged,
    map snd tagged = JsMap.keys cards
    /\ Forall (tagOf getQualifiedProfileName cards) tagged
    /\ l = firstSeen (map fst tagged).

(** The decision [sort] takes from [compareProfileNames]. *)
Definition profileAfter (this : LoginComponent) (a b : string) : bool :=
  0 <? JsArray.sortCompare (compareProfileNames this a b).

(** Two entries of the groups before and after [forEach]: same key, the
    card references rearranged. *)
Definition regrouped (e e' : string * list string) : Prop :=
  fst e = fst e' /\ Permutation (snd e) (snd e').

(** The entries of a profile order that are profile references other than
    ['web-$default']. *)
Definition nonSentinel (refs : list (option string)) : list string :=
  flat_map (fun e =>
              match e with
              | Some r => if (r =? webDefault)%string then [] else [r]
              | None => []
              end) refs.

(** [a] is not displayed under a greater name than [b]. *)
Definition byDisplayName (this : LoginComponent) (a b : string) : Prop :=
  exists x y,
    JsMap.get (connectionProfileNames this) a = Some x
    /\ JsMap.get (connectionProfileNames this) b = Some y
    /\ (x <=? y)%string = true.

(** A store in which every empty business-network name and card name has
    been replaced by an absent one. *)
Definition emptyAsAbsent (o : option string) : option string :=
  match o with
  | Some s => if (s =? "")%string then None else Some s
  | None => None
  end.

Definition withoutEmptyNames (store : JsMap.t IdCard) : JsMap.t IdCard :=
  map (fun e =>
         (fst e,
          mkIdCard (emptyAsAbsent (getName (snd e)))
            (emptyAsAbsent (getBusinessNetworkName (snd e)))
            (getRoles (snd e)) (getConnectionProfile (snd e)))) store.

(** [r] is one of [a] and [b]. *)
Definition either (a b r : string) : bool :=
  (r =? a)%string || (r =? b)%string.

(** What [sortBy] orders by: nothing for a falsy value, the primitive
    string for a truthy one. *)
Definition sortKey (v : value) : option string :=
  if truthy v then toPrimitive v else None.

(** The card stored under [a] does not have to go behind the one under
    [b]: its business network comes first under [sortBy], or the networks
    tie and its roles do not come later. *)
Definition cardNotAfter (store : JsMap.t IdCard) (a b : string) : Prop :=
  exists cardA cardB,
    getIdentityCard store a = Some cardA
    /\ getIdentityCard store b = Some cardB
    /\ (sortBy (ofString (getBusinessNetworkName cardA))
          (ofString (getBusinessNetworkName cardB)) < 0
        \/ (sortBy (ofString (getBusinessNetworkName cardA))
              (ofString (getBusinessNetworkName cardB)) = 0
            /\ sortBy (ofArray (getRoles cardA)) (ofArray (getRoles cardB))
               <= 0)).

(** The decision [sort] takes from [sortIdCards]. *)
Definition cardAfter (store : JsMap.t IdCard) (a b : string) : bool :=
  match sortIdCards store a b with
  | Ok v => 0 <? JsArray.sortCompare v
  | Throw _ => false
  end.

(** An entry [(cardRef, card)] under which [get] finds that card. *)
Definition resolved (cards : JsMap.t IdCard) (e : string * IdCard) : Prop :=
  JsMap.get cards (fst e) = Some (snd e).

(** What the callback of [map] returns and what it does to the component
    when [cards.get(cardRef)] is the card of the entry. *)
Definition tagEntry (getQualifiedProfileName : ConnectionProfile -> string)
    (e : string * IdCard) : string * string :=
  (getQualifiedProfileName (getConnectionProfile (snd e)), fst e).

Definition registerProfile
    (getQualifiedProfileName : ConnectionProfile -> string)
    (this : LoginComponent) (e : string * IdCard) : LoginComponent :=
  let connectionProfile := getConnectionProfile (snd e) in
  let connectionProfileRef := getQualifiedProfileName connectionProfile in
  if negb (JsMap.has (connectionProfileNames this) connectionProfileRef)
  then
    set_connectionProfiles
      (JsMap.set (connectionProfiles this) connectionProfileRef
         connectionProfile)
      (set_connectionProfileNames
         (JsMap.set (connectionProfileNames this) connectionProfileRef
            (name connectionProfile)) this)
  else this.

(** The card references that [reduce] collects under the key [p]. *)
Definition groupOf (p : string) (tagged : list (string * string))
  : list string :=
  map snd (filter (fun t => (fst t =? p)%string) tagged).

(** A group after [forEach] has sorted it. *)
Definition sortGroup (cards : JsMap.t IdCard) (e : string * list string)
  : string * list string :=
  (fst e, isort (cardAfter cards) (snd e)).

(** A stored profile sits under its own reference, next to its own name,
    and is the profile of one of the entries. *)
Definition profilesAgree (getQualifiedProfileName : ConnectionProfile -> string)
    (es : list (string * IdCard)) (s : LoginComponent) : Prop :=
  forall r cp,
    JsMap.get (connectionProfiles s) r = Some cp ->
    JsMap.get (connectionProfileNames s) r = Some (name cp)
    /\ getQualifiedProfileName cp = r
    /\ exists e, In e es /\ getConnectionProfile (snd e) = cp.

(** ** The order on strings *)

Lemma ascii_compare_refl (a : ascii) : Ascii.compare a a = Eq.
Proof. unfold Ascii.compare. apply N.compare_refl. Qed.

Lemma ascii_compare_lt_trans (a b c : ascii) :
  Ascii.compare a b = Lt -> Ascii.compare b c = Lt -> Ascii.compare a c = Lt.
Proof.
  unfold Ascii.compare. rewrite !N.compare_lt_iff. lia.
Qed.

Lemma string_compare_refl (s : string) : (s ?= s)%string = Eq.
Proof.
  induction s as [|a s IH]; simpl; [reflexivity|].
  now rewrite ascii_compare_refl.
Qed.

Lemma string_compare_lt_trans (a b c : string) :
  (a ?= b)%string = Lt -> (b ?= c)%string = Lt -> (a ?= c)%string = Lt.
Proof.
  revert b c. induction a as [|x a IH]; intros [|y b] [|z c]; simpl;
    try discriminate; try reflexivity.
  destruct (Ascii.compare x y) eqn:Exy; try discriminate;
    destruct (Ascii.compare y z) eqn:Eyz; try discriminate; intros Hab Hbc.
  - apply Ascii.compare_eq_iff in Exy, Eyz. subst.
    rewrite ascii_compare_refl. eauto.
  - apply Ascii.compare_eq_iff in Exy. subst. now rewrite Eyz.
  - apply Ascii.compare_eq_iff in Eyz. subst. now rewrite Exy.
  - now rewrite (ascii_compare_lt_trans _ _ _ Exy Eyz).
Qed.

Lemma string_ltb_irrefl (s : string) : (s <? s)%string = false.
Proof. unfold String.ltb. now rewrite string_compare_refl. Qed.

Lemma string_ltb_leb (x y : string) :
  (y <? x)%string = false <-> (x <=? y)%string = true.
Proof.
  unfold String.ltb, String.leb. rewrite (String.compare_antisym x y).
  destruct (y ?= x)%string; simpl; split; congruence.
Qed.

Lemma string_ltb_asym (x y : string) :
  (x <? y)%string = true -> (y <? x)%string = false.
Proof.
  unfold String.ltb. rewrite (String.compare_antisym x y).
  destruct (y ?= x)%string; simpl; congruence.
Qed.

Lemma string_leb_trans (x y z : string) :
  (x <=? y)%string = true -> (y <=? z)%string = true -> (x <=? z)%string = true.
Proof.
  unfold String.leb.
  destruct (x ?= y)%string eqn:Exy; try discriminate;
    destruct (y ?= z)%string eqn:Eyz; try discriminate; intros _ _.
  - apply String.compare_eq_iff in Exy. subst. now rewrite Eyz.
  - apply String.compare_eq_iff in Exy. subst. now rewrite Eyz.
  - apply String.compare_eq_iff in Eyz. subst. now rewrite Exy.
  - now rewrite (string_compare_lt_trans _ _ _ Exy Eyz).
Qed.

(** ** [Map] *)

Lemma get_Some_In_keys {V : Type} (m : JsMap.t V) (k : string) (v : V) :
  JsMap.get m k = Some v -> In k (JsMap.keys m).
Proof.
  induction m as [|[k' v'] m IH]; simpl; [discriminate|].
  destruct (String.eqb_spec k' k); intros H; [now left | right; auto].
Qed.

Lemma get_Some_In {V : Type} (m : JsMap.t V) (k : string) (v : V) :
  JsMap.get m k = Some v -> In (k, v) m.
Proof.
  induction m as [|[k' v'] m IH]; simpl; [discriminate|].
  destruct (String.eqb_spec k' k) as [->|_].
  - intros [= ->]. now left.
  - intros H. right. auto.
Qed.

Lemma In_keys_get {V : Type} (m : JsMap.t V) (k : string) :
  In k (JsMap.keys m) -> exists v, JsMap.get m k = Some v.
Proof.
  induction m as [|[k' v'] m IH]; simpl; [tauto|].
  destruct (String.eqb_spec k' k); intros H; [eauto|].
  destruct H as [H|H]; [contradiction | auto].
Qed.

Lemma has_true_iff {V : Type} (m : JsMap.t V) (k : string) :
  JsMap.has m k = true <-> In k (JsMap.keys m).
Proof.
  unfold JsMap.has. split.
  - destruct (JsMap.get m k) eqn:E; [|discriminate].
    intros _. eapply get_Some_In_keys; eauto.
  - intros H. apply In_keys_get in H. destruct H as [v ->]. reflexivity.
Qed.

Lemma keys_set {V : Type} (m : JsMap.t V) (k : string) (v : V) :
  JsMap.keys (JsMap.set m k v)
  = if JsMap.has m k then JsMap.keys m else JsMap.keys m ++ [k].
Proof.
  unfold JsMap.has.
  induction m as [|[k' v'] m IH]; simpl; [reflexivity|].
  destruct (String.eqb_spec k' k); simpl; [reflexivity|].
  rewrite IH. now destruct (JsMap.get m k).
Qed.

Lemma get_set_same {V : Type} (m : JsMap.t V) (k : string) (v : V) :
  JsMap.get (JsMap.set m k v) k = Some v.
Proof.
  induction m as [|[k' v'] m IH]; simpl.
  - now rewrite String.eqb_refl.
  - destruct (String.eqb_spec k' k) as [->|Hne]; simpl.
    + now rewrite String.eqb_refl.
    + apply String.eqb_neq in Hne. now rewrite Hne.
Qed.

Lemma get_set_other {V : Type} (m : JsMap.t V) (k k0 : string) (v : V) :
  k <> k0 -> JsMap.get (JsMap.set m k v) k0 = JsMap.get m k0.
Proof.
  intros Hne. induction m as [|[k' v'] m IH]; simpl.
  - apply String.eqb_neq in Hne. now rewrite Hne.
  - destruct (String.eqb_spec k' k) as [->|Hk]; simpl.
    + apply String.eqb_neq in Hne. now rewrite Hne.
    + now rewrite IH.
Qed.

Lemma NoDup_keys_set {V : Type} (m : JsMap.t V) (k : string) (v : V) :
  NoDup (JsMap.keys m) -> NoDup (JsMap.keys (JsMap.set m k v)).
Proof.
  intros H. rewrite keys_set.
  destruct (JsMap.has m k) eqn:E; [assumption|].
  apply NoDup_app; [assumption | repeat constructor; simpl; tauto |].
  intros x Hx [<-|[]]. apply has_true_iff in Hx. congruence.
Qed.

(** ** [Array.prototype.sort] *)

Section Sort.

Context {A : Type}.

Lemma insert_pure (g : A -> A -> option Z) (x : A) (l : list A) :
  JsArray.insert (fun a b => Ok (g a b)) x l
  = Ok (insertBy (fun a b => 0 <? JsArray.sortCompare (g a b)) x l).
Proof.
  induction l as [|y l IH]; simpl; [reflexivity|].
  destruct (0 <? JsArray.sortCompare (g x y)); [|reflexivity].
  now rewrite IH.
Qed.

Lemma sort_pure (g : A -> A -> option Z) (l : list A) :
  JsArray.sort (fun a b => Ok (g a b)) l
  = Ok (isort (fun a b => 0 <? JsArray.sortCompare (g a b)) l).
Proof.
  induction l as [|x l IH]; simpl; [reflexivity|].
  rewrite IH. simpl. apply insert_pure.
Qed.

Lemma insert_defined (comparefn : A -> A -> result (option Z))
    (x : A) (l : list A) :
  (forall y, In y l -> exists v, comparefn x y = Ok v) ->
  exists r, JsArray.insert comparefn x l = Ok r /\ Permutation (x :: l) r.
Proof.
  induction l as [|y l IH]; intros H; simpl.
  - eauto.
  - destruct (H y (or_introl eq_refl)) as [v ->]. simpl.
    destruct (0 <? JsArray.sortCompare v).
    + destruct IH as (r & -> & Hr); [intros; apply H; now right|].
      simpl. eexists; split; [reflexivity|].
      rewrite perm_swap. now constructor.
    + eauto.
Qed.

Lemma sort_defined (comparefn : A -> A -> result (option Z)) (l : list A) :
  (forall x y, In x l -> In y l -> exists v, comparefn x y = Ok v) ->
  exists r, JsArray.sort comparefn l = Ok r /\ Permutation l r.
Proof.
  induction l as [|x l IH]; intros H; simpl.
  - eauto.
  - destruct IH as (r & -> & Hr); [intros; apply H; now right|]. simpl.
    destruct (insert_defined comparefn x r) as (r' & -> & Hr').
    + intros y Hy. apply H; [now left|].
      right. eapply Permutation_in; [symmetry|]; eauto.
    + eexists; split; [reflexivity|].
      rewrite <- Hr'. now constructor.
Qed.

Variable after : A -> A -> bool.

Lemma insertBy_perm (x : A) (l : list A) :
  Permutation (x :: l) (insertBy after x l).
Proof.
  induction l as [|y l IH]; simpl; [reflexivity|].
  destruct (after x y); [|reflexivity].
  rewrite perm_swap. now constructor.
Qed.

Lemma isort_perm (l : list A) : Permutation l (isort after l).
Proof.
  induction l as [|x l IH]; simpl; [reflexivity|].
  rewrite <- insertBy_perm. now constructor.
Qed.

Lemma isort_In (l : list A) (x : A) : In x (isort after l) <-> In x l.
Proof.
  split; apply Permutation_in; [symmetry|]; apply isort_perm.
Qed.

(** Sortedness, for a comparator that is total and transitive on the
    elements of the array. *)
Section Sorted.

Variable le : A -> A -> Prop.
Variable dom : A -> Prop.
Hypothesis le_trans : forall x y z, le x y -> le y z -> le x z.
Hypothesis after_false : forall x y, dom x -> dom y -> after x y = false -> le x y.
Hypothesis after_true : forall x y, dom x -> dom y -> after x y = true -> le y x.

Lemma insertBy_sorted (x : A) (l : list A) :
  dom x -> Forall dom l ->
  StronglySorted le l -> StronglySorted le (insertBy after x l).
Proof.
  intros Hx Hl Hs. induction Hs as [|y l Hs IH Hy]; simpl.
  - repeat constructor.
  - inversion Hl as [|? ? Hdy Hdl]; subst.
    destruct (after x y) eqn:E.
    + constructor; [auto|].
      eapply Permutation_Forall; [apply insertBy_perm|].
      constructor; [eauto | assumption].
    + assert (Hxy : le x y) by auto.
      constructor; [now constructor|].
      constructor; [assumption|].
      eapply Forall_impl; [|exact Hy]. eauto.
Qed.

Lemma isort_sorted (l : list A) :
  Forall dom l -> StronglySorted le (isort after l).
Proof.
  induction l as [|x l IH]; intros Hl; simpl; [constructor|].
  inversion Hl; subst.
  apply insertBy_sorted; auto.
  eapply Permutation_Forall; [apply isort_perm | assumption].
Qed.

End Sorted.

(** Stability: what [after] moves an element across is never selected
    together with it. *)
Section Stable.

Variable p : A -> bool.
Variable dom : A -> Prop.
Hypothesis across :
  forall x y, dom x -> dom y -> after x y = true -> p x = true -> p y = false.

Lemma insertBy_filter (x : A) (l : list A) :
  dom x -> Forall dom l ->
  filter p (insertBy after x l) = filter p (x :: l).
Proof.
  intros Hx Hl. induction Hl as [|y l Hy Hl IH]; [reflexivity|].
  simpl. destruct (after x y) eqn:E; [|reflexivity].
  simpl. rewrite IH. simpl.
  destruct (p x) eqn:Px; [|reflexivity].
  now rewrite (across x y Hx Hy E Px).
Qed.

Lemma isort_filter (l : list A) :
  Forall dom l -> filter p (isort after l) = filter p l.
Proof.
  induction l as [|x l IH]; intros Hl; [reflexivity|].
  inversion Hl; subst. simpl isort.
  rewrite insertBy_filter; auto.
  - simpl. now rewrite IH.
  - eapply Permutation_Forall; [apply isort_perm | assumption].
Qed.

End Stable.

End Sort.

(** ** [indexOf], indexing and [splice] *)

Lemma indexOfFrom_absent (x : string) (l : list string) (i : Z) :
  ~ In x l -> JsArray.indexOfFrom x l i = -1.
Proof.
  revert i. induction l as [|y l IH]; intros i H; simpl; [reflexivity|].
  destruct (String.eqb_spec y x) as [->|Hne].
  - exfalso. apply H. now left.
  - apply IH. intros Hin. apply H. now right.
Qed.

Lemma indexOfFrom_present (x : string) (l : list string) (i : Z) :
  In x l ->
  exists l1 l2, l = l1 ++ x :: l2 /\ ~ In x l1
    /\ JsArray.indexOfFrom x l i = i + Z.of_nat (length l1).
Proof.
  revert i. induction l as [|y l IH]; intros i H; [destruct H|]. simpl.
  destruct (String.eqb_spec y x) as [->|Hne].
  - exists [], l. simpl. repeat split; [tauto | lia].
  - destruct H as [H|H]; [contradiction|].
    destruct (IH (i + 1) H) as (l1 & l2 & -> & Hl1 & ->).
    exists (y :: l1), l2. simpl. repeat split; [tauto | lia].
Qed.

Lemma at_middle {A : Type} (l1 l2 : list A) (x : A) :
  JsArray.at_ (l1 ++ x :: l2) (Z.of_nat (length l1)) = Some x.
Proof.
  unfold JsArray.at_.
  destruct (Z.ltb_spec (Z.of_nat (length l1)) 0); [lia|].
  rewrite Nat2Z.id, nth_error_app2, Nat.sub_diag; [reflexivity | lia].
Qed.

Lemma splice_middle {A : Type} (l1 l2 : list A) (x : A) :
  JsArray.splice (l1 ++ x :: l2) (Z.of_nat (length l1)) 1 = l1 ++ l2.
Proof.
  unfold JsArray.splice. rewrite length_app. simpl length.
  destruct (Z.ltb_spec (Z.of_nat (length l1)) 0); [lia|].
  replace (Z.min (Z.of_nat (length l1)) (Z.of_nat (length l1 + S (length l2))))
    with (Z.of_nat (length l1)) by lia.
  replace (Z.min (Z.max 1 0)
             (Z.of_nat (length l1 + S (length l2)) - Z.of_nat (length l1)))
    with 1 by lia.
  replace (Z.to_nat (Z.of_nat (length l1) + 1)) with (length l1 + 1)%nat by lia.
  rewrite Nat2Z.id, firstn_app, Nat.sub_diag, firstn_all. simpl firstn.
  rewrite app_nil_r, skipn_app, skipn_all2 by lia.
  replace (length l1 + 1 - length l1)%nat with 1%nat by lia.
  reflexivity.
Qed.

Lemma splice_last {A : Type} (l : list A) (x : A) :
  JsArray.splice (l ++ [x]) (-1) 1 = l.
Proof.
  unfold JsArray.splice. rewrite length_app. simpl length.
  change (-1 <? 0) with true. cbv iota.
  replace (Z.max (Z.of_nat (length l + 1) + -1) 0)
    with (Z.of_nat (length l)) by lia.
  replace (Z.min (Z.max 1 0) (Z.of_nat (length l + 1) - Z.of_nat (length l)))
    with 1 by lia.
  replace (Z.to_nat (Z.of_nat (length l) + 1)) with (length l + 1)%nat by lia.
  rewrite Nat2Z.id, firstn_app, Nat.sub_diag, firstn_all. simpl firstn.
  rewrite app_nil_r, skipn_all2; [apply app_nil_r|].
  rewrite length_app. simpl. lia.
Qed.

(** ** Order of first encounter *)

Lemma existsb_eqb_In (r : string) (l : list string) :
  existsb (String.eqb r) l = true <-> In r l.
Proof.
  rewrite existsb_exists. split.
  - intros (x & Hx & E). apply String.eqb_eq in E. now subst.
  - intros H. exists r. split; [assumption | apply String.eqb_refl].
Qed.

Lemma has_existsb {V : Type} (m : JsMap.t V) (r : string) :
  JsMap.has m r = existsb (String.eqb r) (JsMap.keys m).
Proof.
  destruct (JsMap.has m r) eqn:E; symmetry.
  - apply existsb_eqb_In. now apply has_true_iff.
  - destruct (existsb (String.eqb r) (JsMap.keys m)) eqn:E'; [|reflexivity].
    apply existsb_eqb_In, has_true_iff in E'. congruence.
Qed.

Lemma keys_set_discover {V : Type} (m : JsMap.t V) (r : string) (v : V) :
  JsMap.keys (JsMap.set m r v) = discover (JsMap.keys m) r.
Proof. rewrite keys_set, has_existsb. reflexivity. Qed.

Lemma discover_In (seen : list string) (r x : string) :
  In x (discover seen r) <-> In x seen \/ x = r.
Proof.
  unfold discover. destruct (existsb (String.eqb r) seen) eqn:E.
  - apply existsb_eqb_In in E. split; [tauto|]. intros [H| ->]; assumption.
  - rewrite in_app_iff. simpl. intuition.
Qed.

Lemma discover_NoDup (seen : list string) (r : string) :
  NoDup seen -> NoDup (discover seen r).
Proof.
  intros H. unfold discover.
  destruct (existsb (String.eqb r) seen) eqn:E; [assumption|].
  apply NoDup_app; [assumption | repeat constructor; simpl; tauto |].
  intros x Hx [<-|[]]. apply existsb_eqb_In in Hx. congruence.
Qed.

Lemma fold_discover_In (refs seen : list string) (x : string) :
  In x (fold_left discover refs seen) <-> In x seen \/ In x refs.
Proof.
  revert seen. induction refs as [|r refs IH]; intros seen; simpl; [tauto|].
  rewrite IH, discover_In. intuition.
Qed.

Lemma fold_discover_NoDup (refs seen : list string) :
  NoDup seen -> NoDup (fold_left discover refs seen).
Proof.
  revert seen. induction refs as [|r refs IH]; intros seen H; simpl; auto.
  apply IH, discover_NoDup, H.
Qed.

Lemma fold_discover_nonempty (refs seen : list string) :
  refs <> [] -> fold_left discover refs seen <> [].
Proof.
  destruct refs as [|r refs]; [congruence|]. intros _ E.
  assert (H : In r (fold_left discover (r :: refs) seen)).
  { apply fold_discover_In. right. now left. }
  rewrite E in H. destruct H.
Qed.

(** ** The passes of [loadIdentityCards] *)

Section Passes.

Variable getQualifiedProfileName : ConnectionProfile -> string.

Local Abbreviation tagCardRef := (tagCardRef getQualifiedProfileName).
Local Abbreviation mapCardRefs := (mapCardRefs getQualifiedProfileName).
Local Abbreviation tagOf := (tagOf getQualifiedProfileName).

Lemma tagCardRef_run (cards : JsMap.t IdCard) (k : string)
    (this : LoginComponent) :
  In k (JsMap.keys cards) ->
  exists r this', tagCardRef cards k this = Ok ((r, k), this')
    /\ tagOf cards (r, k)
    /\ idCards this' = idCards this
    /\ JsMap.keys (connectionProfileNames this')
       = discover (JsMap.keys (connectionProfileNames this)) r.
Proof.
  intros Hk. apply In_keys_get in Hk. destruct Hk as [card Hcard].
  unfold tagCardRef. rewrite Hcard. simpl.
  eexists _, _. split; [reflexivity|]. split; [exists card; auto|].
  rewrite has_existsb. unfold discover.
  destruct (existsb _ _) eqn:E; simpl; [split; reflexivity|].
  rewrite keys_set_discover. unfold discover. now rewrite E.
Qed.

Lemma mapCardRefs_run (cards : JsMap.t IdCard) (ks : list string)
    (this : LoginComponent) :
  incl ks (JsMap.keys cards) ->
  exists tagged this', mapCardRefs cards ks this = Ok (tagged, this')
    /\ map snd tagged = ks
    /\ Forall (tagOf cards) tagged
    /\ idCards this' = idCards this
    /\ JsMap.keys (connectionProfileNames this')
       = fold_left discover (map fst tagged)
           (JsMap.keys (connectionProfileNames this)).
Proof.
  revert this. induction ks as [|k ks IH]; intros this Hks; simpl.
  - exists [], this. repeat split; constructor.
  - destruct (tagCardRef_run cards k this) as (r & this1 & -> & Ht & Hi & Hn).
    { apply Hks. now left. }
    simpl.
    destruct (IH this1) as (tagged & this2 & -> & Hs & Hf & Hi2 & Hn2).
    { intros x Hx. apply Hks. now right. }
    simpl. exists ((r, k) :: tagged), this2.
    split; [reflexivity|]. simpl. rewrite Hs, Hn2, Hn, Hi2, Hi.
    repeat split. now constructor.
Qed.

Lemma tagCardRef_graft (cards : JsMap.t IdCard) (k : string)
    (this c : LoginComponent) :
  tagCardRef cards k (graft this c)
  = r <- tagCardRef cards k c ;; Ok (fst r, graft this (snd r)).
Proof.
  unfold tagCardRef. destruct (JsMap.get cards k); simpl; [|reflexivity].
  destruct (JsMap.has (connectionProfileNames c) _); reflexivity.
Qed.

Lemma mapCardRefs_graft (cards : JsMap.t IdCard) (ks : list string)
    (this c : LoginComponent) :
  mapCardRefs cards ks (graft this c)
  = r <- mapCardRefs cards ks c ;; Ok (fst r, graft this (snd r)).
Proof.
  revert c. induction ks as [|k ks IH]; intros c; simpl; [reflexivity|].
  rewrite tagCardRef_graft.
  destruct (tagCardRef cards k c) as [[t c1]|e]; simpl; [|reflexivity].
  rewrite IH.
  destruct (mapCardRefs cards ks c1) as [[ts c2]|e]; reflexivity.
Qed.

(** Grouping. *)

Lemma concat_values_set (m : JsMap.t (list string)) (p k : string) :
  Permutation
    (concat (JsMap.values
               (JsMap.set m p (orElse (JsMap.get m p) [] ++ [k]))))
    (concat (JsMap.values m) ++ [k]).
Proof.
  induction m as [|[p' l] m IH]; simpl; [reflexivity|].
  destruct (String.eqb_spec p' p) as [->|Hne]; simpl.
  - rewrite <- !app_assoc. apply Permutation_app_head, Permutation_app_comm.
  - unfold JsMap.values in IH. rewrite IH. now rewrite app_assoc.
Qed.

Lemma group_concat (tagged : list (string * string))
    (m : JsMap.t (list string)) :
  Permutation (concat (JsMap.values (fold_left groupCardRef tagged m)))
    (concat (JsMap.values m) ++ map snd tagged).
Proof.
  revert m. induction tagged as [|[p k] tagged IH]; intros m; simpl.
  - now rewrite app_nil_r.
  - rewrite IH. unfold groupCardRef at 1. simpl fst. simpl snd.
    rewrite concat_values_set, <- app_assoc. reflexivity.
Qed.

Lemma group_members (tagged : list (string * string))
    (m : JsMap.t (list string)) (p k : string) (l : list string) :
  JsMap.get (fold_left groupCardRef tagged m) p = Some l -> In k l ->
  In k (orElse (JsMap.get m p) []) \/ In (p, k) tagged.
Proof.
  revert m. induction tagged as [|[p' k'] tagged IH]; intros m Hg Hk;
    simpl in *.
  - left. now rewrite Hg.
  - destruct (IH _ Hg Hk) as [H|H]; [|now right; right].
    unfold groupCardRef in H. simpl fst in H. simpl snd in H.
    destruct (String.eqb_spec p' p) as [->|Hne].
    + rewrite get_set_same in H. simpl in H.
      apply in_app_iff in H. destruct H as [H|[<-|[]]]; [now left|].
      right. now left.
    + rewrite get_set_other in H by assumption. now left.
Qed.

Lemma group_NoDup (tagged : list (string * string))
    (m : JsMap.t (list string)) :
  NoDup (JsMap.keys m) -> NoDup (JsMap.keys (fold_left groupCardRef tagged m)).
Proof.
  revert m. induction tagged as [|t tagged IH]; intros m H; simpl; auto.
  apply IH. unfold groupCardRef. now apply NoDup_keys_set.
Qed.

(** Sorting the groups. *)

Lemma sortIdCards_defined (cards : JsMap.t IdCard) (a b : string) :
  In a (JsMap.keys cards) -> In b (JsMap.keys cards) ->
  exists v, sortIdCards cards a b = Ok v.
Proof.
  intros Ha Hb. apply In_keys_get in Ha, Hb.
  destruct Ha as [ca Ha], Hb as [cb Hb].
  unfold sortIdCards, getIdentityCard. rewrite Ha, Hb. simpl.
  destruct (negb _); [eauto|]. destruct (negb _); eauto.
Qed.

Lemma forEach_sort_run (cards : JsMap.t IdCard) (g : JsMap.t (list string)) :
  incl (concat (JsMap.values g)) (JsMap.keys cards) ->
  exists g', JsMap.forEach (JsArray.sort (sortIdCards cards)) g = Ok g'
    /\ Forall2 regrouped g g'.
Proof.
  induction g as [|[p l] g IH]; intros H; simpl.
  - eauto.
  - simpl in H.
    destruct (sort_defined (sortIdCards cards) l) as (l' & -> & Hl).
    { intros x y Hx Hy. apply sortIdCards_defined; apply H, in_or_app; auto. }
    destruct IH as (g' & -> & Hg).
    { intros x Hx. apply H, in_or_app. auto. }
    simpl. eexists. split; [reflexivity|].
    constructor; [split; auto | assumption].
Qed.

Lemma groups_keys (g g' : JsMap.t (list string)) :
  Forall2 regrouped g g' ->
  JsMap.keys g' = JsMap.keys g.
Proof.
  induction 1 as [|[p l] [p' l'] g g' [E _] _ IH]; simpl in *; congruence.
Qed.

Lemma groups_concat (g g' : JsMap.t (list string)) :
  Forall2 regrouped g g' ->
  Permutation (concat (JsMap.values g')) (concat (JsMap.values g)).
Proof.
  induction 1 as [|[p l] [p' l'] g g' [_ E] _ IH]; simpl in *; [reflexivity|].
  apply Permutation_app; [now symmetry | assumption].
Qed.

Lemma groups_get (g g' : JsMap.t (list string)) (p : string)
    (l' : list string) :
  Forall2 regrouped g g' ->
  JsMap.get g' p = Some l' ->
  exists l, JsMap.get g p = Some l /\ Permutation l l'.
Proof.
  induction 1 as [|[q l] [q' m] g g' [E1 E2] _ IH]; simpl in *;
    [discriminate|]. subst q'.
  destruct (q =? p)%string; [|assumption].
  intros [= <-]. eauto.
Qed.

(** The whole run: it never throws, and this is what it leaves in the
    component. *)
Lemma loadIdentityCards_run (cards : JsMap.t IdCard) (this : LoginComponent) :
  exists c tagged,
    loadIdentityCards getQualifiedProfileName cards this = Ok c
    /\ idCards c = cards
    /\ map snd tagged = JsMap.keys cards
    /\ Forall (tagOf cards) tagged
    /\ JsMap.keys (connectionProfileNames c) = firstSeen (map fst tagged)
    /\ Forall2 regrouped (fold_left groupCardRef tagged JsMap.empty)
         (idCardRefs c)
    /\ connectionProfileRefs c
       = JsArray.at_ (JsMap.keys (connectionProfileNames c))
           (JsArray.indexOf (JsMap.keys (connectionProfileNames c)) webDefault)
         :: map Some
              (isort (profileAfter c)
                 (JsArray.splice (JsMap.keys (connectionProfileNames c))
                    (JsArray.indexOf (JsMap.keys (connectionProfileNames c))
                       webDefault) 1)).
Proof.
  unfold loadIdentityCards.
  destruct (mapCardRefs_run cards (JsMap.keys cards)
              (set_connectionProfiles JsMap.empty
                 (set_connectionProfileNames JsMap.empty
                    (set_idCards cards this))))
    as (tagged & this1 & E & Hs & Hf & Hi & Hn); [apply incl_refl|].
  rewrite E. simpl.
  destruct (forEach_sort_run cards (fold_left groupCardRef tagged JsMap.empty))
    as (g' & -> & Hg).
  { intros x Hx.
    eapply Permutation_in in Hx; [|apply group_concat].
    simpl in Hx. now rewrite Hs in Hx. }
  simpl. rewrite sort_pure. simpl.
  eexists _, tagged. split; [reflexivity|]. simpl.
  repeat split; assumption.
Qed.

(** Of the component it starts from, a run keeps the fields it does not
    assign, and nothing else. *)
Lemma loadIdentityCards_carry (cards : JsMap.t IdCard)
    (this c0 : LoginComponent) :
  loadIdentityCards getQualifiedProfileName cards this
  = c <- loadIdentityCards getQualifiedProfileName cards c0 ;; Ok (carry this c).
Proof.
  unfold loadIdentityCards.
  change (set_connectionProfiles JsMap.empty
            (set_connectionProfileNames JsMap.empty (set_idCards cards this)))
    with (graft this
            (set_connectionProfiles JsMap.empty
               (set_connectionProfileNames JsMap.empty
                  (set_idCards cards c0)))).
  rewrite mapCardRefs_graft.
  destruct (mapCardRefs cards (JsMap.keys cards) _) as [[tagged c1]|e];
    simpl; [|reflexivity].
  destruct (JsMap.forEach _ _) as [g|e]; simpl; [|reflexivity].
  rewrite !sort_pure. reflexivity.
Qed.

End Passes.

(** ** Relative order *)

Lemma filter_none {A : Type} (p : A -> bool) (l : list A) :
  (forall x, In x l -> p x = false) -> filter p l = [].
Proof.
  induction l as [|x l IH]; intros H; simpl; [reflexivity|].
  rewrite (H x (or_introl eq_refl)). apply IH. intros y Hy. apply H. now right.
Qed.

Lemma filter_cons_split {A : Type} (p : A -> bool) (l t : list A) (a : A) :
  filter p l = a :: t -> exists l1 l2, l = l1 ++ a :: l2 /\ filter p l2 = t.
Proof.
  induction l as [|x l IH]; simpl; [discriminate|].
  destruct (p x).
  - intros [= -> <-]. now exists [], l.
  - intros H. destruct (IH H) as (l1 & l2 & -> & Ht).
    now exists (x :: l1), l2.
Qed.

Lemma either_false (a b r : string) : r <> a -> r <> b -> either a b r = false.
Proof.
  intros Ha Hb. unfold either.
  apply String.eqb_neq in Ha, Hb. now rewrite Ha, Hb.
Qed.

Lemma either_true (a b r : string) : either a b r = true -> r = a \/ r = b.
Proof.
  unfold either. intros H. apply orb_true_iff in H.
  destruct H as [H|H]; apply String.eqb_eq in H; auto.
Qed.

Lemma before_filter (a b : string) (l : list string) :
  NoDup l -> before a b l -> filter (either a b) l = [a; b].
Proof.
  intros Hnd (l1 & l2 & l3 & ->).
  assert (Hab : a <> b).
  { intros <-. apply NoDup_remove_2 in Hnd. apply Hnd.
    rewrite !in_app_iff. simpl. auto. }
  pose proof (NoDup_remove_2 _ _ _ Hnd) as Ha.
  rewrite app_comm_cons, app_assoc in Hnd.
  pose proof (NoDup_remove_2 _ _ _ Hnd) as Hb.
  rewrite !in_app_iff in Ha, Hb. simpl in Ha, Hb.
  rewrite filter_app. simpl. rewrite filter_app. simpl.
  unfold either at 2 4. rewrite !String.eqb_refl, orb_true_r. simpl.
  rewrite !filter_none; [reflexivity | | |];
    intros x Hx; apply either_false; intros ->; tauto.
Qed.

Lemma filter_before (a b : string) (l : list string) :
  filter (either a b) l = [a; b] -> before a b l.
Proof.
  intros H. apply filter_cons_split in H. destruct H as (l1 & l2 & -> & H).
  apply filter_cons_split in H. destruct H as (l2' & l3 & -> & _).
  now exists l1, l2', l3.
Qed.

Lemma splice_removelast {A : Type} (l : list A) :
  JsArray.splice l (-1) 1 = removelast l.
Proof.
  destruct l as [|y l]; [reflexivity|].
  destruct (exists_last (l := y :: l)) as (init & x & ->); [discriminate|].
  now rewrite splice_last, removelast_last.
Qed.

Lemma order_split (ks : list string) :
  (exists l1 l2,
      ks = l1 ++ webDefault :: l2 /\ ~ In webDefault l1
      /\ JsArray.at_ ks (JsArray.indexOf ks webDefault) = Some webDefault
      /\ JsArray.splice ks (JsArray.indexOf ks webDefault) 1 = l1 ++ l2)
  \/ (~ In webDefault ks
      /\ JsArray.indexOf ks webDefault = -1
      /\ JsArray.at_ ks (JsArray.indexOf ks webDefault) = None
      /\ JsArray.splice ks (JsArray.indexOf ks webDefault) 1 = removelast ks).
Proof.
  unfold JsArray.indexOf.
  destruct (in_dec string_dec webDefault ks) as [Hin|Hout].
  - left. destruct (indexOfFrom_present _ _ 0 Hin) as (l1 & l2 & -> & H1 & ->).
    exists l1, l2. simpl Z.add.
    repeat split; [assumption | apply at_middle | apply splice_middle].
  - right. rewrite (indexOfFrom_absent _ _ 0 Hout).
    repeat split; [assumption | apply splice_removelast].
Qed.

Section Aggregation.

Variable getQualifiedProfileName : ConnectionProfile -> string.

Local Abbreviation tagOf := (tagOf getQualifiedProfileName).

Lemma tagged_refs (cards : JsMap.t IdCard) (tagged : list (string * string))
    (r : string) :
  map snd tagged = JsMap.keys cards -> Forall (tagOf cards) tagged ->
  In r (map fst tagged)
  <-> exists cardRef card,
        JsMap.get cards cardRef = Some card
        /\ getQualifiedProfileName (getConnectionProfile card) = r.
Proof.
  intros Hs Hf. rewrite Forall_forall in Hf. split.
  - intros H. apply in_map_iff in H. destruct H as ([r' k] & <- & Hin).
    destruct (Hf _ Hin) as (card & Hc & Hr). simpl in *. eauto.
  - intros (k & card & Hc & Hr).
    pose proof (get_Some_In_keys _ _ _ Hc) as Hk. rewrite <- Hs in Hk.
    apply in_map_iff in Hk. destruct Hk as ([r' k'] & E & Hin).
    simpl in E. subst k'.
    destruct (Hf _ Hin) as (card' & Hc' & Hr'). simpl in *.
    assert (card' = card) by congruence. subst card'.
    apply in_map_iff. exists (r', k). split; [simpl; congruence | assumption].
Qed.

Lemma firstSeen_In (refs : list string) (r : string) :
  In r (firstSeen refs) <-> In r refs.
Proof. unfold firstSeen. rewrite fold_discover_In. simpl. tauto. Qed.

Lemma firstSeen_NoDup (refs : list string) : NoDup (firstSeen refs).
Proof. apply fold_discover_NoDup. constructor. Qed.

(** C3: when some card's profile reference is ['web-$default'], the run
    succeeds and index 0 of the profile order holds that reference,
    whatever the display names are. *)
Theorem web_profile_first (cards : JsMap.t IdCard) (this : LoginComponent) :
  (exists cardRef card,
      JsMap.get cards cardRef = Some card
      /\ getQualifiedProfileName (getConnectionProfile card) = webDefault) ->
  exists c,
    loadIdentityCards getQualifiedProfileName cards this = Ok c
    /\ nth_error (connectionProfileRefs c) 0 = Some (Some webDefault).
Proof.
  intros Hweb.
  destruct (loadIdentityCards_run getQualifiedProfileName cards this)
    as (c & tagged & E & _ & Hs & Hf & Hn & _ & Hr).
  exists c. split; [assumption|]. rewrite Hr. simpl.
  destruct (order_split (JsMap.keys (connectionProfileNames c)))
    as [(l1 & l2 & _ & _ & -> & _)|(Hout & _)]; [reflexivity|].
  exfalso. apply Hout. rewrite Hn. apply firstSeen_In.
  apply (tagged_refs cards); assumption.
Qed.

Lemma profile_keys_discovery (cards : JsMap.t IdCard) (this c : LoginComponent) :
  loadIdentityCards getQualifiedProfileName cards this = Ok c ->
  discoveryOrder getQualifiedProfileName cards
    (JsMap.keys (connectionProfileNames c)).
Proof.
  intros E.
  destruct (loadIdentityCards_run getQualifiedProfileName cards this)
    as (c' & tagged & E' & _ & Hs & Hf & Hn & _).
  rewrite E in E'. injection E' as <-.
  exists tagged. auto.
Qed.

(** C9: a non-empty input none of whose cards is on ['web-$default']:
    [indexOf] is [-1], the order starts with [undefined], and what follows
    is the discovered references without the last one. *)
Theorem no_web_profile_drops_last (cards : JsMap.t IdCard)
    (this : LoginComponent) :
  cards <> [] ->
  (forall cardRef card,
      JsMap.get cards cardRef = Some card ->
      getQualifiedProfileName (getConnectionProfile card) <> webDefault) ->
  exists c init lst rest,
    loadIdentityCards getQualifiedProfileName cards this = Ok c
    /\ discoveryOrder getQualifiedProfileName cards (init ++ [lst])
    /\ JsMap.keys (connectionProfileNames c) = init ++ [lst]
    /\ JsArray.indexOf (JsMap.keys (connectionProfileNames c)) webDefault = -1
    /\ connectionProfileRefs c = None :: map Some rest
    /\ Permutation rest init
    /\ ~ In lst rest.
Proof.
  intros Hne Hweb.
  destruct (loadIdentityCards_run getQualifiedProfileName cards this)
    as (c & tagged & E & _ & Hs & Hf & Hn & _ & Hr).
  assert (Hnd : NoDup (JsMap.keys (connectionProfileNames c))).
  { rewrite Hn. apply firstSeen_NoDup. }
  assert (Hk : JsMap.keys (connectionProfileNames c) <> []).
  { rewrite Hn. apply fold_discover_nonempty.
    destruct tagged; [|discriminate].
    destruct cards; [congruence | discriminate]. }
  destruct (exists_last Hk) as (init & lst & Hl).
  destruct (order_split (JsMap.keys (connectionProfileNames c)))
    as [(l1 & l2 & Hks & _)|(Hout & Hi & Ha & Hsp)].
  - exfalso.
    assert (Hin : In webDefault (firstSeen (map fst tagged))).
    { rewrite <- Hn, Hks. apply in_elt. }
    apply firstSeen_In, (tagged_refs cards) in Hin; try assumption.
    destruct Hin as (k & card & Hc & Hq). exact (Hweb _ _ Hc Hq).
  - rewrite Ha, Hsp in Hr. rewrite Hl, removelast_last in Hr.
    exists c, init, lst, (isort (profileAfter c) init).
    repeat split; try assumption.
    + rewrite <- Hl. eapply profile_keys_discovery; eauto.
    + symmetry. apply isort_perm.
    + rewrite isort_In. rewrite Hl in Hnd.
      apply NoDup_remove_2 in Hnd. now rewrite app_nil_r in Hnd.
Qed.

(** The order behind index 0, in both cases of [indexOf]. *)

Lemma nonSentinel_map_Some (l : list string) :
  ~ In webDefault l -> nonSentinel (map Some l) = l.
Proof.
  induction l as [|r l IH]; intros H; [reflexivity|].
  unfold nonSentinel in *. simpl in *.
  destruct (String.eqb_spec r webDefault) as [->|_]; [tauto|].
  simpl. f_equal. apply IH. tauto.
Qed.

Lemma profile_order_shape (cards : JsMap.t IdCard) (this : LoginComponent) :
  exists c p d q,
    loadIdentityCards getQualifiedProfileName cards this = Ok c
    /\ JsMap.keys (connectionProfileNames c) = p ++ d ++ q
    /\ NoDup (JsMap.keys (connectionProfileNames c))
    /\ ~ In webDefault (p ++ q)
    /\ nonSentinel (connectionProfileRefs c)
       = isort (profileAfter c) (p ++ q).
Proof.
  destruct (loadIdentityCards_run getQualifiedProfileName cards this)
    as (c & tagged & E & _ & Hs & Hf & Hn & _ & Hr).
  assert (Hnd : NoDup (JsMap.keys (connectionProfileNames c))).
  { rewrite Hn. apply firstSeen_NoDup. }
  destruct (order_split (JsMap.keys (connectionProfileNames c)))
    as [(l1 & l2 & Hks & _ & Ha & Hsp)|(Hout & Hi & Ha & Hsp)];
    rewrite Ha, Hsp in Hr.
  - assert (Hw : ~ In webDefault (l1 ++ l2)).
    { rewrite Hks in Hnd. now apply NoDup_remove_2 in Hnd. }
    exists c, l1, [webDefault], l2. repeat split; try assumption.
    rewrite Hr.
    transitivity (nonSentinel (map Some (isort (profileAfter c) (l1 ++ l2))));
      [reflexivity|].
    apply nonSentinel_map_Some.
    now rewrite isort_In.
  - destruct (JsMap.keys (connectionProfileNames c)) as [|k ks] eqn:Ek.
    + exists c, [], [], []. repeat split; try assumption.
      * rewrite Ek. constructor.
      * rewrite Hr. reflexivity.
    + destruct (exists_last (l := k :: ks)) as (init & lst & El);
        [discriminate|].
      rewrite El in *. rewrite removelast_last in Hr.
      assert (Hw : ~ In webDefault init).
      { intros H. apply Hout. apply in_or_app. now left. }
      exists c, init, [lst], []. rewrite !app_nil_r.
      repeat split; try assumption.
      * rewrite Ek. assumption.
      * rewrite Hr.
        transitivity (nonSentinel (map Some (isort (profileAfter c) init)));
          [reflexivity|].
        apply nonSentinel_map_Some. now rewrite isort_In.
Qed.

Lemma profileAfter_same_name (c : LoginComponent) (x y : string) :
  JsMap.get (connectionProfileNames c) x
  = JsMap.get (connectionProfileNames c) y ->
  profileAfter c x y = false.
Proof.
  intros E. unfold profileAfter, compareProfileNames, Js.gt, Js.lt.
  rewrite E. destruct (JsMap.get (connectionProfileNames c) y); simpl;
    [now rewrite string_ltb_irrefl | reflexivity].
Qed.

Lemma profileAfter_order (c : LoginComponent) (x y : string) :
  In x (JsMap.keys (connectionProfileNames c)) ->
  In y (JsMap.keys (connectionProfileNames c)) ->
  if profileAfter c x y then byDisplayName c y x else byDisplayName c x y.
Proof.
  intros Hx Hy. apply In_keys_get in Hx, Hy.
  destruct Hx as [nx Hx], Hy as [ny Hy].
  unfold profileAfter, compareProfileNames, Js.gt, Js.lt, byDisplayName.
  rewrite Hx, Hy. simpl.
  destruct (nx <? ny)%string eqn:E1; simpl.
  - exists nx, ny. repeat split.
    apply string_ltb_leb. now apply string_ltb_asym.
  - destruct (ny <? nx)%string eqn:E2; simpl.
    + exists ny, nx. repeat split.
      now apply string_ltb_leb.
    + exists nx, ny. repeat split. now apply string_ltb_leb.
Qed.

Lemma byDisplayName_trans (c : LoginComponent) (x y z : string) :
  byDisplayName c x y -> byDisplayName c y z -> byDisplayName c x z.
Proof.
  intros (a & b & Ha & Hb & Hab) (b' & d & Hb' & Hd & Hbd).
  assert (b' = b) by congruence. subst b'.
  exists a, d. repeat split; try assumption.
  eapply string_leb_trans; eauto.
Qed.

Lemma filter_without (a b : string) (p d q : list string) :
  NoDup (p ++ d ++ q) -> In a (p ++ q) -> In b (p ++ q) ->
  filter (either a b) (p ++ q) = filter (either a b) (p ++ d ++ q).
Proof.
  intros Hnd Ha Hb. rewrite !filter_app.
  rewrite (filter_none _ d); [reflexivity|].
  intros x Hx. apply either_false; intros ->.
  - clear Hb. revert Hnd Ha Hx. clear. intros Hnd Ha Hx.
    apply in_split in Hx. destruct Hx as (d1 & d2 & ->).
    rewrite <- app_assoc in Hnd. simpl in Hnd. rewrite app_assoc in Hnd.
    apply NoDup_remove_2 in Hnd. apply Hnd.
    rewrite !in_app_iff in *. tauto.
  - clear Ha. revert Hnd Hb Hx. clear. intros Hnd Hb Hx.
    apply in_split in Hx. destruct Hx as (d1 & d2 & ->).
    rewrite <- app_assoc in Hnd. simpl in Hnd. rewrite app_assoc in Hnd.
    apply NoDup_remove_2 in Hnd. apply Hnd.
    rewrite !in_app_iff in *. tauto.
Qed.

(** C6: the profile references of the order other than ['web-$default']
    (the [undefined] that stands in front when no card is on the web
    profile is not a reference and has no display name) are sorted by
    display name, and two of them under the same display name stand as
    they were discovered. *)
Theorem profiles_sorted_by_name_stable (cards : JsMap.t IdCard)
    (this : LoginComponent) :
  exists c,
    loadIdentityCards getQualifiedProfileName cards this = Ok c
    /\ discoveryOrder getQualifiedProfileName cards
         (JsMap.keys (connectionProfileNames c))
    /\ StronglySorted (byDisplayName c)
         (nonSentinel (connectionProfileRefs c))
    /\ forall a b,
         In a (nonSentinel (connectionProfileRefs c)) ->
         In b (nonSentinel (connectionProfileRefs c)) ->
         JsMap.get (connectionProfileNames c) a
         = JsMap.get (connectionProfileNames c) b ->
         before a b (JsMap.keys (connectionProfileNames c)) ->
         before a b (nonSentinel (connectionProfileRefs c)).
Proof.
  destruct (profile_order_shape cards this)
    as (c & p & d & q & E & Hks & Hnd & Hw & Hr).
  exists c. split; [assumption|].
  split; [eapply profile_keys_discovery; eauto|]. rewrite Hr.
  assert (Hdom : Forall (fun r => In r (JsMap.keys (connectionProfileNames c)))
                   (p ++ q)).
  { apply Forall_forall. intros x Hx. rewrite Hks, !in_app_iff in *. tauto. }
  split.
  - apply isort_sorted
      with (dom := fun r => In r (JsMap.keys (connectionProfileNames c)));
      try assumption.
    + apply byDisplayName_trans.
    + intros x y Hx Hy Hf. pose proof (profileAfter_order c x y Hx Hy) as H.
      now rewrite Hf in H.
    + intros x y Hx Hy Ht. pose proof (profileAfter_order c x y Hx Hy) as H.
      now rewrite Ht in H.
  - intros a b Ha Hb Hname Hbefore. rewrite isort_In in Ha, Hb.
    apply filter_before.
    rewrite isort_filter with (dom := fun _ => True).
    + rewrite (filter_without a b p d q), <- Hks; try assumption.
      * now apply before_filter.
      * now rewrite <- Hks.
    + intros x y _ _ Hafter Hx.
      destruct (either a b y) eqn:Hy; [|reflexivity].
      rewrite profileAfter_same_name in Hafter; [discriminate|].
      apply either_true in Hx, Hy.
      destruct Hx as [-> | ->], Hy as [-> | ->]; congruence.
    + apply Forall_forall. auto.
Qed.

Lemma In_get {V : Type} (m : JsMap.t V) (k : string) (v : V) :
  NoDup (JsMap.keys m) -> In (k, v) m -> JsMap.get m k = Some v.
Proof.
  induction m as [|[k' v'] m IH]; simpl; [tauto|].
  intros Hnd [E|Hin].
  - injection E as -> ->. now rewrite String.eqb_refl.
  - inversion Hnd as [|? ? Hk Hm]; subst.
    destruct (String.eqb_spec k' k) as [->|_]; [|auto].
    exfalso. apply Hk. change k with (fst (k, v)). now apply in_map.
Qed.

(** C7: every group holds card references of cards on that profile, the
    groups have distinct keys, and together they hold each card reference
    of the input once. *)
Theorem groups_partition_cards (cards : JsMap.t IdCard)
    (this : LoginComponent) :
  NoDup (JsMap.keys cards) ->
  exists c,
    loadIdentityCards getQualifiedProfileName cards this = Ok c
    /\ (forall p group cardRef,
          In (p, group) (idCardRefs c) -> In cardRef group ->
          exists card,
            JsMap.get cards cardRef = Some card
            /\ getQualifiedProfileName (getConnectionProfile card) = p)
    /\ NoDup (JsMap.keys (idCardRefs c))
    /\ Permutation (concat (JsMap.values (idCardRefs c))) (JsMap.keys cards)
    /\ NoDup (concat (JsMap.values (idCardRefs c))).
Proof.
  intros Hcards.
  destruct (loadIdentityCards_run getQualifiedProfileName cards this)
    as (c & tagged & E & _ & Hs & Hf & _ & Hg & _).
  assert (Hk : NoDup (JsMap.keys (idCardRefs c))).
  { rewrite (groups_keys _ _ Hg). apply group_NoDup. constructor. }
  assert (Hp : Permutation (concat (JsMap.values (idCardRefs c)))
                 (JsMap.keys cards)).
  { rewrite (groups_concat _ _ Hg), group_concat. simpl. now rewrite Hs. }
  exists c. repeat split; try assumption.
  - intros p group cardRef Hin Hc.
    apply In_get in Hin; [|assumption].
    destruct (groups_get _ _ _ _ Hg Hin) as (l & Hl & Hperm).
    apply (Permutation_in _ (Permutation_sym Hperm)) in Hc.
    destruct (group_members _ _ _ _ _ Hl Hc) as [[]|Ht].
    rewrite Forall_forall in Hf. exact (Hf _ Ht).
  - eapply Permutation_NoDup; [symmetry; exact Hp | assumption].
Qed.

(** C8: what a run computes depends on the cards only; from any two
    components the five computed fields come out the same, and a second
    run on the component the first one left changes nothing. *)
Theorem loadIdentityCards_deterministic (cards : JsMap.t IdCard)
    (this this' : LoginComponent) :
  exists c c',
    loadIdentityCards getQualifiedProfileName cards this = Ok c
    /\ loadIdentityCards getQualifiedProfileName cards this' = Ok c'
    /\ connectionProfileNames c = connectionProfileNames c'
    /\ connectionProfileRefs c = connectionProfileRefs c'
    /\ idCardRefs c = idCardRefs c'
    /\ connectionProfiles c = connectionProfiles c'
    /\ idCards c = idCards c'
    /\ loadIdentityCards getQualifiedProfileName cards c = Ok c.
Proof.
  destruct (loadIdentityCards_run getQualifiedProfileName cards this)
    as (c0 & _ & E & _).
  exists (carry this c0), (carry this' c0).
  rewrite (loadIdentityCards_carry _ cards this this),
    (loadIdentityCards_carry _ cards this' this),
    (loadIdentityCards_carry _ cards (carry this c0) this), E.
  simpl. repeat split.
Qed.

End Aggregation.

(** ** The comparators *)

Lemma sortBy_falsy_left (a a' b : value) :
  truthy a = false -> truthy a' = false -> sortBy a b = sortBy a' b.
Proof.
  intros Ha Ha'. unfold sortBy. rewrite Ha, Ha'.
  now destruct (truthy b).
Qed.

Lemma sortBy_falsy_right (a b b' : value) :
  truthy b = false -> truthy b' = false -> sortBy a b = sortBy a b'.
Proof.
  intros Hb Hb'. unfold sortBy. rewrite Hb, Hb'.
  now destruct (truthy a).
Qed.

Lemma truthy_emptyAsAbsent (o : option string) :
  truthy (ofString (emptyAsAbsent o)) = truthy (ofString o).
Proof.
  destruct o as [s|]; simpl; [|reflexivity].
  destruct (s =? "")%string eqn:E; simpl; [reflexivity | now rewrite E].
Qed.

Lemma sortBy_emptyAsAbsent (x y : option string) :
  sortBy (ofString (emptyAsAbsent x)) (ofString (emptyAsAbsent y))
  = sortBy (ofString x) (ofString y).
Proof.
  assert (H : forall o, truthy (ofString o) = true -> emptyAsAbsent o = o).
  { intros [s|]; simpl; [|discriminate].
    destruct (s =? "")%string; [discriminate | reflexivity]. }
  destruct (truthy (ofString x)) eqn:Ex.
  - rewrite (H x Ex). destruct (truthy (ofString y)) eqn:Ey.
    + now rewrite (H y Ey).
    + apply sortBy_falsy_right; [now rewrite truthy_emptyAsAbsent | assumption].
  - rewrite (sortBy_falsy_left _ (ofString x));
      [| now rewrite truthy_emptyAsAbsent | assumption].
    destruct (truthy (ofString y)) eqn:Ey.
    + now rewrite (H y Ey).
    + apply sortBy_falsy_right; [now rewrite truthy_emptyAsAbsent | assumption].
Qed.

Lemma get_withoutEmptyNames (store : JsMap.t IdCard) (k : string) :
  JsMap.get (withoutEmptyNames store) k
  = option_map
      (fun card =>
         mkIdCard (emptyAsAbsent (getName card))
           (emptyAsAbsent (getBusinessNetworkName card))
           (getRoles card) (getConnectionProfile card))
      (JsMap.get store k).
Proof.
  induction store as [|[k' card] store IH]; simpl; [reflexivity|].
  now destruct (k' =? k)%string.
Qed.

(** C10: an empty string is to [sortBy] what [undefined] is: the two
    compare equal, both come before every non-empty string, either can
    stand for the other on either side, and a store whose empty
    business-network and card names are made absent gets the same answers
    from [sortIdCards]. *)
Theorem sortBy_empty_string_is_absent :
  sortBy (Str "") Undefined = 0
  /\ sortBy Undefined (Str "") = 0
  /\ (forall ch s, sortBy (Str "") (Str (String ch s)) = -1
                   /\ sortBy Undefined (Str (String ch s)) = -1)
  /\ (forall v, sortBy (Str "") v = sortBy Undefined v
                /\ sortBy v (Str "") = sortBy v Undefined)
  /\ (forall store a b,
        sortIdCards (withoutEmptyNames store) a b = sortIdCards store a b).
Proof.
  split; [reflexivity|]. split; [reflexivity|].
  split; [intros ch s; split; reflexivity|].
  split.
  - intros v. split; [apply sortBy_falsy_left | apply sortBy_falsy_right];
      reflexivity.
  - intros store a b.
    unfold sortIdCards, getIdentityCard. rewrite !get_withoutEmptyNames.
    destruct (JsMap.get store a) as [cardA|]; simpl; [|reflexivity].
    destruct (JsMap.get store b) as [cardB|]; simpl; [|reflexivity].
    now rewrite sortBy_emptyAsAbsent.
Qed.



(** C4, at two cards that differ in their names only: [sortBy] puts "bob"
    behind "alice", [sortIdCards] returns [undefined] all the same, and the
    group is left as it was met. *)
Theorem sortIdCards_drops_name_comparison :
  sortBy (ofString (Some "bob")) (ofString (Some "alice")) = 1
  /\ sortIdCards tieCards "c1" "c2" = Ok None
  /\ exists c,
       loadIdentityCards qualifiedProfileName tieCards blank = Ok c
       /\ idCardRefs c = [("hlfv1-Org A profile", ["c1"; "c2"])]%string.
Proof.
  repeat split. eexists. split; reflexivity.
Qed.


(** ** The profile order without ['web-$default'] *)

(** X19: with ['web-$default'] among the profiles the order is a
    rearrangement of the keys of [connectionProfileNames], without
    duplicates. *)
Lemma profile_order_permutation_with_web
    (getQualifiedProfileName : ConnectionProfile -> string)
    (cards : JsMap.t IdCard) (this : LoginComponent) :
  (exists cardRef card,
      JsMap.get cards cardRef = Some card
      /\ getQualifiedProfileName (getConnectionProfile card) = webDefault) ->
  exists c,
    loadIdentityCards getQualifiedProfileName cards this = Ok c
    /\ Permutation (connectionProfileRefs c)
         (map Some (JsMap.keys (connectionProfileNames c)))
    /\ NoDup (connectionProfileRefs c).
Proof.
  intros Hweb.
  destruct (loadIdentityCards_run getQualifiedProfileName cards this)
    as (c & tagged & E & _ & Hs & Hf & Hn & _ & Hr).
  assert (Hnd : NoDup (JsMap.keys (connectionProfileNames c))).
  { rewrite Hn. apply firstSeen_NoDup. }
  assert (Hp : Permutation (connectionProfileRefs c)
                 (map Some (JsMap.keys (connectionProfileNames c)))).
  { rewrite Hr.
    destruct (order_split (JsMap.keys (connectionProfileNames c)))
      as [(l1 & l2 & Hks & _ & -> & ->)|(Hout & _)].
    - rewrite Hks, map_app. simpl.
      rewrite <- Permutation_middle, <- map_app. constructor.
      apply Permutation_map. symmetry. apply isort_perm.
    - exfalso. apply Hout. rewrite Hn. apply firstSeen_In.
      apply (tagged_refs getQualifiedProfileName cards); assumption. }
  exists c. repeat split; try assumption.
  eapply Permutation_NoDup; [symmetry; exact Hp|].
  apply Finite.Injective_map_NoDup; [|assumption].
  intros x y [= ->]. reflexivity.
Qed.

(** C1, at two cards of two network profiles: the order holds [undefined]
    and one of the two keys of [connectionProfileNames], which no
    rearrangement of the keys does. *)
Theorem profile_order_without_web_not_permutation :
  exists c,
    loadIdentityCards qualifiedProfileName noWebCards blank = Ok c
    /\ JsMap.keys (connectionProfileNames c)
       = ["hlfv1-Org A profile"; "hlfv1-Org B profile"]%string
    /\ connectionProfileRefs c = [None; Some "hlfv1-Org A profile"]%string
    /\ ~ Permutation (connectionProfileRefs c)
           (map Some (JsMap.keys (connectionProfileNames c))).
Proof.
  eexists. split; [reflexivity|]. split; [reflexivity|].
  split; [reflexivity|]. simpl. intros H.
  apply (Permutation_in None) in H; [|now left].
  simpl in H. intuition discriminate.
Qed.

(** C2, at the empty mapping: no names and no groups, but an order of
    length one that holds [undefined]. *)
Theorem empty_input_order_holds_undefined
    (getQualifiedProfileName : ConnectionProfile -> string)
    (this : LoginComponent) :
  exists c,
    loadIdentityCards getQualifiedProfileName JsMap.empty this = Ok c
    /\ connectionProfileNames c = JsMap.empty
    /\ idCardRefs c = JsMap.empty
    /\ connectionProfileRefs c = [None].
Proof.
  eexists. split; [reflexivity|]. repeat split.
Qed.

(** ** The theorems at the sample inputs *)

Lemma web_profile_first_witness :
  (exists cardRef card,
      JsMap.get exCards cardRef = Some card
      /\ qualifiedProfileName (getConnectionProfile card) = webDefault)
  /\ exists c,
       loadIdentityCards qualifiedProfileName exCards blank = Ok c
       /\ nth_error (connectionProfileRefs c) 0 = Some (Some webDefault).
Proof.
  assert (H : exists cardRef card,
             JsMap.get exCards cardRef = Some card
             /\ qualifiedProfileName (getConnectionProfile card) = webDefault).
  { exists "c3"%string, (mkIdCard (Some "eve") None (Some []) web).
    split; reflexivity. }
  split; [exact H|].
  exact (web_profile_first qualifiedProfileName exCards blank H).
Defined.

Lemma noWebCards_refs (cardRef : string) (card : IdCard) :
  JsMap.get noWebCards cardRef = Some card ->
  qualifiedProfileName (getConnectionProfile card) <> webDefault.
Proof.
  intros H. apply get_Some_In in H.
  destruct H as [[= <- <-]|[[= <- <-]|[]]]; discriminate.
Defined.

Lemma no_web_profile_drops_last_witness :
  noWebCards <> []
  /\ exists c init lst rest,
       loadIdentityCards qualifiedProfileName noWebCards blank = Ok c
       /\ discoveryOrder qualifiedProfileName noWebCards (init ++ [lst])
       /\ JsMap.keys (connectionProfileNames c) = init ++ [lst]
       /\ JsArray.indexOf (JsMap.keys (connectionProfileNames c)) webDefault
          = -1
       /\ connectionProfileRefs c = None :: map Some rest
       /\ Permutation rest init
       /\ ~ In lst rest.
Proof.
  assert (H : noWebCards <> []) by discriminate.
  split; [exact H|].
  exact (no_web_profile_drops_last qualifiedProfileName noWebCards blank
           H noWebCards_refs).
Defined.

Lemma exCards_keys_NoDup : NoDup (JsMap.keys exCards).
Proof.
  repeat constructor; simpl; intuition discriminate.
Defined.

Lemma groups_partition_cards_witness :
  NoDup (JsMap.keys exCards)
  /\ exists c,
       loadIdentityCards qualifiedProfileName exCards blank = Ok c
       /\ (forall p group cardRef,
             In (p, group) (idCardRefs c) -> In cardRef group ->
             exists card,
               JsMap.get exCards cardRef = Some card
               /\ qualifiedProfileName (getConnectionProfile card) = p)
       /\ NoDup (JsMap.keys (idCardRefs c))
       /\ Permutation (concat (JsMap.values (idCardRefs c)))
            (JsMap.keys exCards)
       /\ NoDup (concat (JsMap.values (idCardRefs c))).
Proof.
  split; [exact exCards_keys_NoDup|].
  exact (groups_partition_cards qualifiedProfileName exCards blank
           exCards_keys_NoDup).
Defined.

(** ** [sortBy] as an order *)

Lemma truthy_toPrimitive (v : value) :
  truthy v = true -> exists s, toPrimitive v = Some s.
Proof. destruct v; simpl; [discriminate | eauto | eauto]. Qed.

Lemma sortBy_spec (a b : value) :
  sortBy a b
  = match sortKey a, sortKey b with
    | None, None => 0
    | None, Some _ => -1
    | Some _, None => 1
    | Some x, Some y =>
        match (x ?= y)%string with Lt => -1 | Eq => 0 | Gt => 1 end
    end.
Proof.
  unfold sortBy, sortKey, Js.gt, Js.lt.
  destruct (truthy a) eqn:Ta, (truthy b) eqn:Tb; simpl.
  - destruct (truthy_toPrimitive a Ta) as [x ->].
    destruct (truthy_toPrimitive b Tb) as [y ->].
    unfold String.ltb. rewrite (String.compare_antisym x y).
    destruct (y ?= x)%string; reflexivity.
  - destruct (truthy_toPrimitive a Ta) as [x ->]. reflexivity.
  - destruct (truthy_toPrimitive b Tb) as [y ->]. reflexivity.
  - reflexivity.
Qed.

Lemma sortBy_swap_range (a b : value) :
  sortBy b a = - sortBy a b
  /\ (sortBy a b = -1 \/ sortBy a b = 0 \/ sortBy a b = 1)
  /\ sortBy a a = 0.
Proof.
  rewrite !sortBy_spec.
  destruct (sortKey a) as [x|], (sortKey b) as [y|]; simpl;
    try rewrite string_compare_refl; try (repeat split; auto; fail).
  rewrite (String.compare_antisym y x).
  destruct (x ?= y)%string; simpl; repeat split; auto.
Qed.

(** X1: [sortBy] answers -1, 0 or 1, swapping the arguments negates the
    answer, and a value compared with itself gives 0. *)
Theorem sortBy_antisymmetric (a b : value) :
  sortBy b a = - sortBy a b
  /\ (sortBy a b = -1 \/ sortBy a b = 0 \/ sortBy a b = 1)
  /\ sortBy a a = 0.
Proof.
  destruct (sortBy_swap_range a b) as (Hswap & Hrange & Hrefl).
  split; [exact Hswap|]. split; [exact Hrange | exact Hrefl].
Qed.

Lemma sortBy_zero_key (a b : value) :
  sortBy a b = 0 <-> sortKey a = sortKey b.
Proof.
  rewrite sortBy_spec.
  destruct (sortKey a) as [x|], (sortKey b) as [y|]; simpl;
    try (split; [discriminate | discriminate]); [|tauto].
  destruct (x ?= y)%string eqn:E.
  - apply String.compare_eq_iff in E. subst. tauto.
  - split; [discriminate|]. intros [= ->].
    rewrite string_compare_refl in E. discriminate.
  - split; [discriminate|]. intros [= ->].
    rewrite string_compare_refl in E. discriminate.
Qed.

(** X2: [sortBy] gives 0 exactly on two values of the same key: two
    falsy values, or two truthy values with the same primitive string (for
    arrays, the same comma-joined string). *)
Theorem sortBy_zero_iff (a b : value) :
  sortBy a b = 0 <-> sortKey a = sortKey b.
Proof.
  split; intros H.
  - now apply sortBy_zero_key.
  - now apply sortBy_zero_key.
Qed.

Lemma sortBy_key_left (a a' b : value) :
  sortKey a = sortKey a' -> sortBy a b = sortBy a' b.
Proof. intros E. rewrite !sortBy_spec. now rewrite E. Qed.

Lemma sortBy_key_right (a b b' : value) :
  sortKey b = sortKey b' -> sortBy a b = sortBy a b'.
Proof. intros E. rewrite !sortBy_spec. now rewrite E. Qed.

Lemma sortBy_lt_trans (a b c : value) :
  sortBy a b < 0 -> sortBy b c < 0 -> sortBy a c < 0.
Proof.
  rewrite !sortBy_spec.
  destruct (sortKey a) as [x|], (sortKey b) as [y|], (sortKey c) as [z|];
    simpl; try lia.
  destruct (x ?= y)%string eqn:Exy; try lia.
  destruct (y ?= z)%string eqn:Eyz; try lia.
  rewrite (string_compare_lt_trans _ _ _ Exy Eyz). lia.
Qed.

Lemma sortBy_le_cases (a b : value) :
  sortBy a b <= 0 <-> sortBy a b < 0 \/ sortKey a = sortKey b.
Proof. rewrite <- sortBy_zero_key. lia. Qed.

Lemma sortBy_le_trans (a b c : value) :
  sortBy a b <= 0 -> sortBy b c <= 0 -> sortBy a c <= 0.
Proof.
  rewrite !sortBy_le_cases. intros [Hab|Hab] [Hbc|Hbc].
  - left. eapply sortBy_lt_trans; eauto.
  - left. now rewrite <- (sortBy_key_right a b c Hbc).
  - left. now rewrite (sortBy_key_left a b c Hab).
  - right. congruence.
Qed.

(** X3: [sortBy] is transitive. *)
Theorem sortBy_transitive (a b c : value) :
  sortBy a b <= 0 -> sortBy b c <= 0 -> sortBy a c <= 0.
Proof.
  intros Hab Hbc. eapply sortBy_le_trans; eassumption.
Qed.

Lemma sortBy_transitive_witness :
  sortBy Undefined (Str "net-a") <= 0
  /\ sortBy (Str "net-a") (Str "net-b") <= 0
  /\ sortBy Undefined (Str "net-b") <= 0.
Proof.
  assert (H1 : sortBy Undefined (Str "net-a") <= 0) by (vm_compute; discriminate).
  assert (H2 : sortBy (Str "net-a") (Str "net-b") <= 0)
    by (vm_compute; discriminate).
  split; [exact H1|]. split; [exact H2|].
  exact (sortBy_transitive Undefined (Str "net-a") (Str "net-b") H1 H2).
Defined.

(** ** [sortIdCards] as an order *)

Lemma sortIdCards_value (store : JsMap.t IdCard) (a b : string)
    (cardA cardB : IdCard) :
  getIdentityCard store a = Some cardA ->
  getIdentityCard store b = Some cardB ->
  sortIdCards store a b
  = Ok (if negb (sortBy (ofString (getBusinessNetworkName cardA))
                   (ofString (getBusinessNetworkName cardB)) =? 0)
        then Some (sortBy (ofString (getBusinessNetworkName cardA))
                     (ofString (getBusinessNetworkName cardB)))
        else if negb (sortBy (ofArray (getRoles cardA))
                        (ofArray (getRoles cardB)) =? 0)
             then Some (sortBy (ofArray (getRoles cardA))
                          (ofArray (getRoles cardB)))
             else None).
Proof.
  intros Ha Hb. unfold sortIdCards. rewrite Ha, Hb. simpl.
  destruct (negb _); [reflexivity|]. destruct (negb _); reflexivity.
Qed.

(** X4: [sortIdCards] throws exactly when one of the two references is
    not in the store. *)
Theorem sortIdCards_throws_iff (store : JsMap.t IdCard) (a b : string) :
  sortIdCards store a b = Throw TypeError
  <-> getIdentityCard store a = None \/ getIdentityCard store b = None.
Proof.
  destruct (getIdentityCard store a) as [cardA|] eqn:Ha.
  - destruct (getIdentityCard store b) as [cardB|] eqn:Hb.
    + rewrite (sortIdCards_value _ _ _ _ _ Ha Hb).
      split; [discriminate | intros [H|H]; discriminate].
    + unfold sortIdCards. rewrite Ha, Hb. simpl. tauto.
  - unfold sortIdCards. rewrite Ha. simpl. tauto.
Qed.

Lemma cardNotAfter_iff (store : JsMap.t IdCard) (a b : string) :
  cardNotAfter store a b
  <-> exists v, sortIdCards store a b = Ok v /\ JsArray.sortCompare v <= 0.
Proof.
  unfold cardNotAfter. split.
  - intros (cardA & cardB & Ha & Hb & H).
    rewrite (sortIdCards_value _ _ _ _ _ Ha Hb).
    eexists. split; [reflexivity|].
    destruct (Z.eqb_spec (sortBy (ofString (getBusinessNetworkName cardA))
                            (ofString (getBusinessNetworkName cardB))) 0);
      simpl; [|lia].
    destruct (Z.eqb_spec (sortBy (ofArray (getRoles cardA))
                            (ofArray (getRoles cardB))) 0); simpl; lia.
  - intros (v & E & Hv).
    destruct (getIdentityCard store a) as [cardA|] eqn:Ha;
      [|unfold sortIdCards in E; rewrite Ha in E; discriminate].
    destruct (getIdentityCard store b) as [cardB|] eqn:Hb;
      [|unfold sortIdCards in E; rewrite Ha, Hb in E; discriminate].
    rewrite (sortIdCards_value _ _ _ _ _ Ha Hb) in E. injection E as <-.
    exists cardA, cardB. repeat split.
    destruct (Z.eqb_spec (sortBy (ofString (getBusinessNetworkName cardA))
                            (ofString (getBusinessNetworkName cardB))) 0);
      simpl in Hv; [|lia].
    destruct (Z.eqb_spec (sortBy (ofArray (getRoles cardA))
                            (ofArray (getRoles cardB))) 0); simpl in Hv; lia.
Qed.

Lemma sortIdCards_swap (store : JsMap.t IdCard) (a b : string) :
  In a (JsMap.keys store) -> In b (JsMap.keys store) ->
  exists v w,
    sortIdCards store a b = Ok v
    /\ sortIdCards store b a = Ok w
    /\ (v = Some (-1) \/ v = Some 1 \/ v = None)
    /\ JsArray.sortCompare w = - JsArray.sortCompare v.
Proof.
  intros Ha Hb. apply In_keys_get in Ha, Hb.
  destruct Ha as [cardA Ha], Hb as [cardB Hb].
  rewrite (sortIdCards_value _ _ _ _ _ Ha Hb),
    (sortIdCards_value _ _ _ _ _ Hb Ha).
  eexists _, _. split; [reflexivity|]. split; [reflexivity|].
  destruct (sortBy_swap_range (ofString (getBusinessNetworkName cardA))
              (ofString (getBusinessNetworkName cardB))) as (-> & Hn & _).
  destruct (sortBy_swap_range (ofArray (getRoles cardA))
              (ofArray (getRoles cardB))) as (-> & Hm & _).
  destruct Hn as [-> | [-> | ->]]; simpl; auto;
    destruct Hm as [-> | [-> | ->]]; simpl; auto.
Qed.

(** X5: on two stored references [sortIdCards] returns -1, 1 or
    [undefined], never 0, and with the references swapped the answer that
    [sort] reads is the negated one. *)
Theorem sortIdCards_antisymmetric (store : JsMap.t IdCard) (a b : string) :
  In a (JsMap.keys store) -> In b (JsMap.keys store) ->
  exists v w,
    sortIdCards store a b = Ok v
    /\ sortIdCards store b a = Ok w
    /\ (v = Some (-1) \/ v = Some 1 \/ v = None)
    /\ JsArray.sortCompare w = - JsArray.sortCompare v.
Proof.
  intros Ha Hb.
  destruct (sortIdCards_swap store a b Ha Hb) as (v & w & H).
  exists v, w. exact H.
Qed.

Lemma sortIdCards_antisymmetric_witness :
  In "c1"%string (JsMap.keys exCards)
  /\ In "c2"%string (JsMap.keys exCards)
  /\ exists v w,
       sortIdCards exCards "c1" "c2" = Ok v
       /\ sortIdCards exCards "c2" "c1" = Ok w
       /\ (v = Some (-1) \/ v = Some 1 \/ v = None)
       /\ JsArray.sortCompare w = - JsArray.sortCompare v.
Proof.
  assert (H1 : In "c1"%string (JsMap.keys exCards)) by (simpl; auto).
  assert (H2 : In "c2"%string (JsMap.keys exCards)) by (simpl; auto).
  split; [exact H1|]. split; [exact H2|].
  exact (sortIdCards_antisymmetric exCards "c1" "c2" H1 H2).
Defined.

Lemma cardNotAfter_trans (store : JsMap.t IdCard) (a b c : string) :
  cardNotAfter store a b -> cardNotAfter store b c -> cardNotAfter store a c.
Proof.
  intros (cardA & cardB & Ha & Hb & Hab) (cardB' & cardC & Hb' & Hc & Hbc).
  assert (cardB' = cardB) by congruence. subst cardB'.
  exists cardA, cardC. repeat split; try assumption.
  destruct Hab as [Hab|[Hab Rab]], Hbc as [Hbc|[Hbc Rbc]].
  - left. eapply sortBy_lt_trans; eauto.
  - left. apply sortBy_zero_key in Hbc.
    now rewrite <- (sortBy_key_right _ _ _ Hbc).
  - left. apply sortBy_zero_key in Hab.
    now rewrite (sortBy_key_left _ _ _ Hab).
  - right. split.
    + apply sortBy_zero_key in Hab, Hbc. apply sortBy_zero_key. congruence.
    + eapply sortBy_le_trans; eauto.
Qed.

(** X6: [sortIdCards] is transitive on what [sort] reads from it. *)
Theorem sortIdCards_transitive (store : JsMap.t IdCard) (a b c : string)
    (v w : option Z) :
  sortIdCards store a b = Ok v -> JsArray.sortCompare v <= 0 ->
  sortIdCards store b c = Ok w -> JsArray.sortCompare w <= 0 ->
  exists u, sortIdCards store a c = Ok u /\ JsArray.sortCompare u <= 0.
Proof.
  intros Eab Hv Ebc Hw. apply cardNotAfter_iff.
  apply cardNotAfter_trans with b; apply cardNotAfter_iff; eauto.
Qed.

Lemma sortIdCards_transitive_witness :
  sortIdCards exCards "c3" "c1" = Ok (Some (-1))
  /\ sortIdCards exCards "c1" "c2" = Ok (Some (-1))
  /\ exists u,
       sortIdCards exCards "c3" "c2" = Ok u /\ JsArray.sortCompare u <= 0.
Proof.
  assert (H1 : sortIdCards exCards "c3" "c1" = Ok (Some (-1))) by reflexivity.
  assert (H2 : sortIdCards exCards "c1" "c2" = Ok (Some (-1))) by reflexivity.
  split; [exact H1|]. split; [exact H2|].
  refine (sortIdCards_transitive exCards "c3" "c1" "c2" _ _ H1 _ H2 _);
    simpl; lia.
Defined.

(** ** The run on resolved entries *)

Lemma sort_isort {A : Type} (comparefn : A -> A -> result (option Z))
    (l : list A) :
  (forall x y, In x l -> In y l -> exists v, comparefn x y = Ok v) ->
  JsArray.sort comparefn l
  = Ok (isort (fun x y =>
                 match comparefn x y with
                 | Ok v => 0 <? JsArray.sortCompare v
                 | Throw _ => false
                 end) l).
Proof.
  set (after := fun x y => match comparefn x y with
                           | Ok v => 0 <? JsArray.sortCompare v
                           | Throw _ => false
                           end).
  assert (Hins : forall x l,
             (forall y, In y l -> exists v, comparefn x y = Ok v) ->
             JsArray.insert comparefn x l = Ok (insertBy after x l)).
  { intros x l0. induction l0 as [|y l0 IH]; intros H; simpl; [reflexivity|].
    unfold after at 1.
    destruct (H y (or_introl eq_refl)) as [v ->]. simpl.
    destruct (0 <? JsArray.sortCompare v); [|reflexivity].
    rewrite IH; [reflexivity|]. intros z Hz. apply H. now right. }
  induction l as [|x l IH]; intros H; simpl; [reflexivity|].
  rewrite IH by (intros; apply H; now right). simpl.
  apply Hins. intros y Hy. apply H; [now left|].
  right. apply isort_In in Hy. exact Hy.
Qed.

Lemma forEach_sort_groups (cards : JsMap.t IdCard)
    (g : JsMap.t (list string)) :
  incl (concat (JsMap.values g)) (JsMap.keys cards) ->
  JsMap.forEach (JsArray.sort (sortIdCards cards)) g
  = Ok (map (sortGroup cards) g).
Proof.
  induction g as [|[p l] g IH]; intros H; simpl; [reflexivity|].
  simpl in H. rewrite sort_isort.
  - simpl. rewrite IH; [reflexivity|].
    intros x Hx. apply H, in_or_app. auto.
  - intros x y Hx Hy. apply sortIdCards_defined; apply H, in_or_app; auto.
Qed.

Lemma resolve_keys (cards : JsMap.t IdCard) (ks : list string) :
  incl ks (JsMap.keys cards) ->
  exists es, map fst es = ks /\ Forall (resolved cards) es.
Proof.
  induction ks as [|k ks IH]; intros H.
  - exists []. split; constructor.
  - destruct IH as (es & Hes & Hr); [intros x Hx; apply H; now right|].
    destruct (In_keys_get cards k) as [card Hc]; [apply H; now left|].
    exists ((k, card) :: es). simpl. split; [now rewrite Hes|].
    constructor; assumption.
Qed.

Lemma resolved_NoDup (cards : JsMap.t IdCard) :
  NoDup (JsMap.keys cards) -> Forall (resolved cards) cards.
Proof.
  intros H. apply Forall_forall. intros [k card] Hin.
  unfold resolved. simpl. revert H Hin. clear.
  induction cards as [|[k' v'] m IH]; simpl; [tauto|].
  intros Hnd [E|Hin].
  - injection E as -> ->. now rewrite String.eqb_refl.
  - inversion Hnd as [|? ? Hk Hm]; subst.
    destruct (String.eqb_spec k' k) as [->|_]; [|auto].
    exfalso. apply Hk. change k with (fst (k, card)). now apply in_map.
Qed.

Section Resolved.

Variable getQualifiedProfileName : ConnectionProfile -> string.

Lemma tagCardRef_resolved (cards : JsMap.t IdCard) (e : string * IdCard)
    (this : LoginComponent) :
  resolved cards e ->
  tagCardRef getQualifiedProfileName cards (fst e) this
  = Ok (tagEntry getQualifiedProfileName e,
        registerProfile getQualifiedProfileName this e).
Proof.
  intros He. unfold tagCardRef, registerProfile, tagEntry.
  unfold resolved in He. rewrite He. simpl.
  destruct (JsMap.has _ _); reflexivity.
Qed.

Lemma mapCardRefs_resolved (cards : JsMap.t IdCard)
    (es : list (string * IdCard)) (this : LoginComponent) :
  Forall (resolved cards) es ->
  mapCardRefs getQualifiedProfileName cards (map fst es) this
  = Ok (map (tagEntry getQualifiedProfileName) es,
        fold_left (registerProfile getQualifiedProfileName) es this).
Proof.
  intros H. revert this. induction H as [|e es He Hes IH]; intros this;
    [reflexivity|].
  cbn [map mapCardRefs fold_left].
  rewrite (tagCardRef_resolved cards e this He).
  cbn [Js.bind fst snd]. rewrite IH. reflexivity.
Qed.

Lemma tagEntry_snd (es : list (string * IdCard)) :
  map snd (map (tagEntry getQualifiedProfileName) es) = map fst es.
Proof. rewrite map_map. reflexivity. Qed.

Lemma registerProfile_fields (es : list (string * IdCard))
    (s s' : LoginComponent) :
  connectionProfileNames s = connectionProfileNames s' ->
  connectionProfiles s = connectionProfiles s' ->
  connectionProfileNames
    (fold_left (registerProfile getQualifiedProfileName) es s)
  = connectionProfileNames
      (fold_left (registerProfile getQualifiedProfileName) es s')
  /\ connectionProfiles
       (fold_left (registerProfile getQualifiedProfileName) es s)
     = connectionProfiles
         (fold_left (registerProfile getQualifiedProfileName) es s').
Proof.
  revert s s'. induction es as [|e es IH]; intros s s' Hn Hp; simpl; [auto|].
  apply IH; unfold registerProfile; rewrite Hn;
    destruct (JsMap.has _ _); simpl; congruence.
Qed.

(** The component a run leaves, written out. *)
Lemma loadIdentityCards_resolved (cards : JsMap.t IdCard)
    (es : list (string * IdCard)) (this : LoginComponent) :
  map fst es = JsMap.keys cards -> Forall (resolved cards) es ->
  exists c,
    loadIdentityCards getQualifiedProfileName cards this = Ok c
    /\ connectionProfileNames c
       = connectionProfileNames
           (fold_left (registerProfile getQualifiedProfileName) es blank)
    /\ connectionProfiles c
       = connectionProfiles
           (fold_left (registerProfile getQualifiedProfileName) es blank)
    /\ idCardRefs c
       = map (sortGroup cards)
           (fold_left groupCardRef
              (map (tagEntry getQualifiedProfileName) es) JsMap.empty).
Proof.
  intros Hk Hr.
  rewrite (loadIdentityCards_carry getQualifiedProfileName cards this blank).
  unfold loadIdentityCards. rewrite <- Hk.
  rewrite (mapCardRefs_resolved cards es _ Hr). cbn [Js.bind fst snd].
  rewrite forEach_sort_groups.
  - cbn [Js.bind]. rewrite sort_pure. cbn [Js.bind].
    eexists. split; [reflexivity|].
    destruct (registerProfile_fields es
                (set_connectionProfiles JsMap.empty
                   (set_connectionProfileNames JsMap.empty
                      (set_idCards cards blank)))
                blank eq_refl eq_refl) as [Hn Hp].
    simpl. repeat split; assumption.
  - intros x Hx. eapply Permutation_in in Hx; [|apply group_concat].
    simpl in Hx. rewrite tagEntry_snd, Hk in Hx. exact Hx.
Qed.

End Resolved.

(** ** What the passes keep *)

Lemma keys_groupCardRef (tagged : list (string * string))
    (m : JsMap.t (list string)) :
  JsMap.keys (fold_left groupCardRef tagged m)
  = fold_left discover (map fst tagged) (JsMap.keys m).
Proof.
  revert m. induction tagged as [|t tagged IH]; intros m; simpl; [reflexivity|].
  rewrite IH. unfold groupCardRef. now rewrite keys_set_discover.
Qed.

Lemma get_groupCardRef (tagged : list (string * string))
    (m : JsMap.t (list string)) (p : string) (l : list string) :
  JsMap.get (fold_left groupCardRef tagged m) p = Some l ->
  l = orElse (JsMap.get m p) [] ++ groupOf p tagged.
Proof.
  revert m. induction tagged as [|[p' k'] tagged IH]; intros m H; simpl in H.
  - rewrite H. unfold groupOf. simpl. now rewrite app_nil_r.
  - rewrite (IH _ H). unfold groupCardRef, groupOf. simpl.
    destruct (String.eqb_spec p' p) as [->|Hne].
    + rewrite get_set_same. simpl. now rewrite <- app_assoc.
    + now rewrite get_set_other.
Qed.

Lemma groupOf_nonempty (tagged : list (string * string)) (p : string) :
  In p (map fst tagged) -> groupOf p tagged <> [].
Proof.
  unfold groupOf. induction tagged as [|[p' k'] tagged IH]; simpl; [tauto|].
  destruct (String.eqb_spec p' p) as [->|Hne]; simpl; [discriminate|].
  intros [E|H]; [contradiction | auto].
Qed.

Lemma groupOf_In (tagged : list (string * string)) (p k : string) :
  In k (groupOf p tagged) <-> In (p, k) tagged.
Proof.
  unfold groupOf. rewrite in_map_iff. split.
  - intros ([p' k'] & E & H). simpl in E. subst k'.
    apply filter_In in H. destruct H as [H E]. simpl in E.
    apply String.eqb_eq in E. now subst.
  - intros H. exists (p, k). split; [reflexivity|].
    apply filter_In. split; [assumption|]. simpl. apply String.eqb_refl.
Qed.

Lemma keys_sortGroup (cards : JsMap.t IdCard) (g : JsMap.t (list string)) :
  JsMap.keys (map (sortGroup cards) g) = JsMap.keys g.
Proof. unfold JsMap.keys. rewrite map_map. reflexivity. Qed.

Lemma get_sortGroup (cards : JsMap.t IdCard) (g : JsMap.t (list string))
    (p : string) :
  JsMap.get (map (sortGroup cards) g) p
  = option_map (isort (cardAfter cards)) (JsMap.get g p).
Proof.
  induction g as [|[q l] g IH]; simpl; [reflexivity|].
  now destruct (q =? p)%string.
Qed.

Section Registered.

Variable getQualifiedProfileName : ConnectionProfile -> string.

Local Abbreviation register := (registerProfile getQualifiedProfileName).
Local Abbreviation refOf :=
  (fun e : string * IdCard =>
     getQualifiedProfileName (getConnectionProfile (snd e))).

Lemma register_names_keys (es : list (string * IdCard)) (s : LoginComponent) :
  JsMap.keys (connectionProfileNames (fold_left register es s))
  = fold_left discover (map fst (map (tagEntry getQualifiedProfileName) es))
      (JsMap.keys (connectionProfileNames s)).
Proof.
  revert s. induction es as [|e es IH]; intros s; simpl; [reflexivity|].
  rewrite IH. f_equal. unfold registerProfile.
  rewrite has_existsb. unfold discover.
  destruct (existsb _ _) eqn:E; simpl; [reflexivity|].
  rewrite keys_set_discover. unfold discover. now rewrite E.
Qed.

Lemma register_profiles_keys (es : list (string * IdCard))
    (s : LoginComponent) :
  JsMap.keys (connectionProfiles s) = JsMap.keys (connectionProfileNames s) ->
  JsMap.keys (connectionProfiles (fold_left register es s))
  = JsMap.keys (connectionProfileNames (fold_left register es s)).
Proof.
  revert s. induction es as [|e es IH]; intros s H; simpl; [assumption|].
  apply IH. unfold registerProfile.
  destruct (JsMap.has _ _); simpl; [assumption|].
  now rewrite !keys_set_discover, H.
Qed.

Local Abbreviation agree := (profilesAgree getQualifiedProfileName).

Lemma register_step_keys (s : LoginComponent) (e : string * IdCard) :
  JsMap.keys (connectionProfiles s) = JsMap.keys (connectionProfileNames s) ->
  JsMap.keys (connectionProfiles (register s e))
  = JsMap.keys (connectionProfileNames (register s e)).
Proof. intros H. exact (register_profiles_keys [e] s H). Qed.

Lemma register_agree (all es : list (string * IdCard)) (s : LoginComponent) :
  incl es all -> agree all s -> agree all (fold_left register es s).
Proof.
  revert s. induction es as [|e es IH]; intros s Hin Hs; simpl; [assumption|].
  apply IH; [intros x Hx; apply Hin; now right|].
  unfold registerProfile.
  destruct (JsMap.has _ _) eqn:E; simpl; [assumption|].
  intros r cp. simpl.
  destruct (String.eqb_spec (refOf e) r) as [<-|Hne].
  - rewrite !get_set_same. intros [= <-].
    repeat split. exists e. split; [apply Hin; now left | reflexivity].
  - rewrite !get_set_other by assumption. apply Hs.
Qed.

Lemma register_keeps (es : list (string * IdCard)) (s : LoginComponent)
    (r n : string) (cp : ConnectionProfile) :
  JsMap.get (connectionProfileNames s) r = Some n ->
  JsMap.get (connectionProfiles s) r = Some cp ->
  JsMap.get (connectionProfileNames (fold_left register es s)) r = Some n
  /\ JsMap.get (connectionProfiles (fold_left register es s)) r = Some cp.
Proof.
  revert s. induction es as [|e es IH]; intros s Hn Hp; simpl; [auto|].
  apply IH; unfold registerProfile;
    destruct (JsMap.has _ _) eqn:E; simpl; try assumption;
    (rewrite get_set_other; [assumption|]);
    intros Er; rewrite Er in E; unfold JsMap.has in E; rewrite Hn in E;
    discriminate.
Qed.

Lemma register_first (l1 l2 : list (string * IdCard)) (e : string * IdCard)
    (s : LoginComponent) :
  JsMap.has (connectionProfileNames s) (refOf e) = false ->
  (forall e', In e' l1 -> refOf e' <> refOf e) ->
  JsMap.get (connectionProfileNames (fold_left register (l1 ++ e :: l2) s))
    (refOf e) = Some (name (getConnectionProfile (snd e)))
  /\ JsMap.get (connectionProfiles (fold_left register (l1 ++ e :: l2) s))
       (refOf e) = Some (getConnectionProfile (snd e)).
Proof.
  revert s. induction l1 as [|e' l1 IH]; intros s Hs Hl1.
  - simpl. apply register_keeps; unfold registerProfile; rewrite Hs; simpl;
      apply get_set_same.
  - simpl. apply IH; [|intros x Hx; apply Hl1; now right].
    unfold registerProfile.
    destruct (JsMap.has (connectionProfileNames s) (refOf e')); simpl;
      [assumption|].
    unfold JsMap.has in *. rewrite get_set_other; [assumption|].
    apply Hl1. now left.
Qed.

End Registered.

(** ** The groups and the two profile maps after a run *)

Lemma In_sortGroup (cards : JsMap.t IdCard) (g : JsMap.t (list string))
    (p : string) (group : list string) :
  In (p, group) (map (sortGroup cards) g) ->
  exists raw, In (p, raw) g /\ group = isort (cardAfter cards) raw.
Proof.
  intros H. apply in_map_iff in H. destruct H as ([q raw] & E & H).
  unfold sortGroup in E. simpl in E. injection E as -> <-. eauto.
Qed.

Lemma In_removelast {A : Type} (l : list A) (x : A) :
  In x (removelast l) -> In x l.
Proof.
  destruct l as [|y l]; [tauto|].
  destruct (exists_last (l := y :: l)) as (init & z & ->); [discriminate|].
  rewrite removelast_last. intros H. apply in_or_app. now left.
Qed.

Lemma cardAfter_order (cards : JsMap.t IdCard) (x y : string) :
  In x (JsMap.keys cards) -> In y (JsMap.keys cards) ->
  if cardAfter cards x y then cardNotAfter cards y x
  else cardNotAfter cards x y.
Proof.
  intros Hx Hy.
  destruct (sortIdCards_swap cards x y Hx Hy)
    as (v & w & Ev & Ew & _ & Hw).
  unfold cardAfter. rewrite Ev.
  destruct (Z.ltb_spec 0 (JsArray.sortCompare v)); apply cardNotAfter_iff.
  - exists w. split; [assumption | lia].
  - exists v. split; [assumption | lia].
Qed.

Lemma filter_groupOf (tagged : list (string * string)) (p a b : string) :
  (forall t, In t tagged -> either a b (snd t) = true -> fst t = p) ->
  filter (either a b) (groupOf p tagged)
  = filter (either a b) (map snd tagged).
Proof.
  unfold groupOf. induction tagged as [|[p' k'] tagged IH]; intros H;
    [reflexivity|]. simpl.
  assert (IH' := IH (fun t Ht => H t (or_intror Ht))).
  destruct (either a b k') eqn:E.
  - assert (Ep : p' = p) by exact (H (p', k') (or_introl eq_refl) E).
    subst p'. rewrite String.eqb_refl. simpl. rewrite E. now rewrite IH'.
  - destruct (p' =? p)%string; simpl; [rewrite E|]; exact IH'.
Qed.

Lemma NoDup_snd_inj {A B : Type} (l : list (A * B)) (t t' : A * B) :
  NoDup (map snd l) -> In t l -> In t' l -> snd t = snd t' -> t = t'.
Proof.
  induction l as [|x l IH]; simpl; [tauto|].
  intros Hnd Ht Ht' E. inversion Hnd as [|? ? Hx Hl]; subst.
  destruct Ht as [<-|Ht], Ht' as [<-|Ht']; auto.
  - exfalso. apply Hx. rewrite E. now apply in_map.
  - exfalso. apply Hx. rewrite <- E. now apply in_map.
Qed.

Section Aggregated.

Variable getQualifiedProfileName : ConnectionProfile -> string.

Local Abbreviation tagEntry := (tagEntry getQualifiedProfileName).

(** X7: after a run every group is sorted: no card reference stands in
    front of one whose card [sortIdCards] puts first by business network
    and roles. *)
Theorem groups_sorted (cards : JsMap.t IdCard) (this : LoginComponent) :
  exists c,
    loadIdentityCards getQualifiedProfileName cards this = Ok c
    /\ forall p group,
         In (p, group) (idCardRefs c) ->
         StronglySorted (cardNotAfter cards) group.
Proof.
  destruct (resolve_keys cards (JsMap.keys cards) (incl_refl _))
    as (es & Hk & Hr).
  destruct (loadIdentityCards_resolved getQualifiedProfileName cards es this
              Hk Hr) as (c & E & _ & _ & Hg).
  exists c. split; [assumption|]. intros p group Hin. rewrite Hg in Hin.
  apply In_sortGroup in Hin. destruct Hin as (raw & Hraw & ->).
  apply isort_sorted with (dom := fun k => In k (JsMap.keys cards)).
  - apply cardNotAfter_trans.
  - intros x y Hx Hy Hf. pose proof (cardAfter_order cards x y Hx Hy) as H.
    now rewrite Hf in H.
  - intros x y Hx Hy Ht. pose proof (cardAfter_order cards x y Hx Hy) as H.
    now rewrite Ht in H.
  - apply Forall_forall. intros k Hkr.
    assert (H : In k (concat (JsMap.values
                                (fold_left groupCardRef (map tagEntry es)
                                   JsMap.empty)))).
    { apply in_concat. exists raw. split; [|assumption].
      change raw with (snd (p, raw)). now apply in_map. }
    eapply Permutation_in in H; [|apply group_concat].
    simpl in H. now rewrite tagEntry_snd, Hk in H.
Qed.

(** X8: on a mapping with distinct keys, two card references of a group
    on which [sortIdCards] returns [undefined] stay in the order in which
    the mapping lists them. *)
Theorem groups_stable (cards : JsMap.t IdCard) (this : LoginComponent) :
  NoDup (JsMap.keys cards) ->
  exists c,
    loadIdentityCards getQualifiedProfileName cards this = Ok c
    /\ forall p group a b,
         In (p, group) (idCardRefs c) -> In a group -> In b group ->
         sortIdCards cards a b = Ok None ->
         before a b (JsMap.keys cards) -> before a b group.
Proof.
  intros Hnd.
  destruct (loadIdentityCards_resolved getQualifiedProfileName cards cards
              this eq_refl (resolved_NoDup cards Hnd)) as (c & E & _ & _ & Hg).
  exists c. split; [assumption|].
  intros p group a b Hin Ha Hb Htie Hbefore. rewrite Hg in Hin.
  apply In_sortGroup in Hin. destruct Hin as (raw & Hraw & ->).
  rewrite isort_In in Ha, Hb.
  apply In_get in Hraw; [|apply group_NoDup; constructor].
  apply get_groupCardRef in Hraw. simpl in Hraw. subst raw.
  apply groupOf_In in Ha, Hb.
  assert (Hsnd : map snd (map tagEntry cards) = JsMap.keys cards)
    by apply tagEntry_snd.
  apply filter_before.
  rewrite isort_filter with (dom := fun _ => True).
  - rewrite filter_groupOf, Hsnd; [now apply before_filter|].
    intros t Ht Ht'. apply either_true in Ht'.
    rewrite <- Hsnd in Hnd.
    destruct Ht' as [Et|Et].
    + now rewrite (NoDup_snd_inj _ t (p, a) Hnd Ht Ha Et).
    + now rewrite (NoDup_snd_inj _ t (p, b) Hnd Ht Hb Et).
  - intros x y _ _ Hafter Hx.
    destruct (either a b y) eqn:Hy; [|reflexivity]. exfalso.
    assert (Hka : In a (JsMap.keys cards)).
    { rewrite <- Hsnd. change a with (snd (p, a)). now apply in_map. }
    assert (Hkb : In b (JsMap.keys cards)).
    { rewrite <- Hsnd. change b with (snd (p, b)). now apply in_map. }
    assert (Hab : cardAfter cards a b = false).
    { unfold cardAfter. now rewrite Htie. }
    assert (Hba : cardAfter cards b a = false).
    { destruct (sortIdCards_swap cards a b Hka Hkb)
        as (v & w & Ev & Ew & _ & Hw).
      unfold cardAfter. rewrite Ew. rewrite Htie in Ev.
      injection Ev as <-. simpl in Hw. rewrite Hw. reflexivity. }
    assert (Hrefl : forall k, In k (JsMap.keys cards) ->
                              cardAfter cards k k = false).
    { intros k Hk.
      destruct (sortIdCards_swap cards k k Hk Hk)
        as (v & w & Ev & Ew & _ & Hw).
      unfold cardAfter. rewrite Ev. rewrite Ev in Ew. injection Ew as <-.
      destruct (Z.ltb_spec 0 (JsArray.sortCompare v)); [lia | reflexivity]. }
    apply either_true in Hx, Hy.
    destruct Hx as [-> | ->], Hy as [-> | ->];
      rewrite ?Hab, ?Hba, ?Hrefl in Hafter by assumption; discriminate.
  - apply Forall_forall. auto.
Qed.

End Aggregated.

Section Profiles.

Variable getQualifiedProfileName : ConnectionProfile -> string.

Local Abbreviation tagEntry := (tagEntry getQualifiedProfileName).
Local Abbreviation register := (registerProfile getQualifiedProfileName).

(** X9: after a run [connectionProfiles], [connectionProfileNames] and
    [idCardRefs] have the same keys in the same order, and a profile stored
    under a reference is the profile of an input card, has that reference
    as its qualified name, and its name is the one stored as display
    name. *)
Theorem profiles_names_groups_agree (cards : JsMap.t IdCard)
    (this : LoginComponent) :
  exists c,
    loadIdentityCards getQualifiedProfileName cards this = Ok c
    /\ JsMap.keys (connectionProfiles c)
       = JsMap.keys (connectionProfileNames c)
    /\ JsMap.keys (idCardRefs c) = JsMap.keys (connectionProfileNames c)
    /\ forall r cp,
         JsMap.get (connectionProfiles c) r = Some cp ->
         JsMap.get (connectionProfileNames c) r = Some (name cp)
         /\ getQualifiedProfileName cp = r
         /\ exists cardRef card,
              JsMap.get cards cardRef = Some card
              /\ getConnectionProfile card = cp.
Proof.
  destruct (resolve_keys cards (JsMap.keys cards) (incl_refl _))
    as (es & Hk & Hr).
  destruct (loadIdentityCards_resolved getQualifiedProfileName cards es this
              Hk Hr) as (c & E & Hn & Hp & Hg).
  exists c. split; [assumption|]. rewrite Hn, Hp, Hg.
  split; [apply register_profiles_keys; reflexivity|].
  split.
  - rewrite keys_sortGroup, keys_groupCardRef, register_names_keys.
    reflexivity.
  - intros r cp Hcp.
    destruct (register_agree getQualifiedProfileName es es blank
                (incl_refl _)) with (r := r) (cp := cp)
      as (Hname & Href & e & He & Hcard); try assumption.
    { intros r0 cp0 H0. discriminate. }
    repeat split; try assumption.
    rewrite Forall_forall in Hr. exists (fst e), (snd e).
    split; [exact (Hr e He) | assumption].
Qed.

(** X10: on a mapping with distinct keys, the first card met with a
    profile reference decides what is stored under it: the display name
    and the profile are those of that card, whatever profiles later cards
    with the same reference carry. *)
Theorem first_card_decides_profile (cards l1 l2 : JsMap.t IdCard)
    (cardRef : string) (card : IdCard) (this : LoginComponent) :
  NoDup (JsMap.keys cards) ->
  cards = l1 ++ (cardRef, card) :: l2 ->
  (forall e, In e l1 ->
     getQualifiedProfileName (getConnectionProfile (snd e))
     <> getQualifiedProfileName (getConnectionProfile card)) ->
  exists c,
    loadIdentityCards getQualifiedProfileName cards this = Ok c
    /\ JsMap.get (connectionProfileNames c)
         (getQualifiedProfileName (getConnectionProfile card))
       = Some (name (getConnectionProfile card))
    /\ JsMap.get (connectionProfiles c)
         (getQualifiedProfileName (getConnectionProfile card))
       = Some (getConnectionProfile card).
Proof.
  intros Hnd Hcards Hfirst.
  destruct (loadIdentityCards_resolved getQualifiedProfileName cards cards
              this eq_refl (resolved_NoDup cards Hnd)) as (c & E & Hn & Hp & _).
  exists c. split; [assumption|]. rewrite Hn, Hp, Hcards.
  apply (register_first getQualifiedProfileName l1 l2 (cardRef, card) blank);
    [reflexivity | assumption].
Qed.

(** X11: every profile reference in the profile order has a display name
    and a group that is not empty. *)
Theorem order_entries_have_name_and_group (cards : JsMap.t IdCard)
    (this : LoginComponent) :
  exists c,
    loadIdentityCards getQualifiedProfileName cards this = Ok c
    /\ forall r,
         In (Some r) (connectionProfileRefs c) ->
         (exists n, JsMap.get (connectionProfileNames c) r = Some n)
         /\ exists group,
              JsMap.get (idCardRefs c) r = Some group /\ group <> [].
Proof.
  destruct (resolve_keys cards (JsMap.keys cards) (incl_refl _))
    as (es & Hk & Hr).
  destruct (loadIdentityCards_resolved getQualifiedProfileName cards es this
              Hk Hr) as (c & E & Hn & _ & Hg).
  destruct (loadIdentityCards_run getQualifiedProfileName cards this)
    as (c' & _ & E' & _ & _ & _ & _ & _ & Hrefs).
  rewrite E in E'. injection E' as <-.
  exists c. split; [assumption|]. intros r Hin.
  assert (Hkey : In r (JsMap.keys (connectionProfileNames c))).
  { rewrite Hrefs in Hin.
    destruct (order_split (JsMap.keys (connectionProfileNames c)))
      as [(l1 & l2 & Hks & _ & Ha & Hsp)|(_ & _ & Ha & Hsp)];
      rewrite Ha, Hsp in Hin; destruct Hin as [Hin|Hin]; try discriminate.
    - injection Hin as <-. rewrite Hks. apply in_elt.
    - apply in_map_iff in Hin. destruct Hin as (x & [= ->] & Hx).
      rewrite isort_In in Hx. rewrite Hks.
      apply in_app_iff in Hx. apply in_app_iff. simpl. tauto.
    - apply in_map_iff in Hin. destruct Hin as (x & [= ->] & Hx).
      rewrite isort_In in Hx. now apply In_removelast. }
  split; [now apply In_keys_get|].
  rewrite Hn, register_names_keys in Hkey. simpl in Hkey.
  assert (Hgk : In r (JsMap.keys (fold_left groupCardRef (map tagEntry es)
                                    JsMap.empty))).
  { now rewrite keys_groupCardRef. }
  apply In_keys_get in Hgk. destruct Hgk as [raw Hraw].
  rewrite Hg, get_sortGroup, Hraw. simpl.
  eexists. split; [reflexivity|].
  apply get_groupCardRef in Hraw. simpl in Hraw. subst raw.
  apply fold_discover_In in Hkey. destruct Hkey as [[]|Hkey].
  apply groupOf_nonempty in Hkey. intros Hnil. apply Hkey.
  apply Permutation_nil. rewrite <- Hnil. symmetry. apply isort_perm.
Qed.

(** X12: the profile order has one entry for each profile, and one entry
    when there is no profile. *)
Theorem profile_order_length (cards : JsMap.t IdCard) (this : LoginComponent) :
  exists c,
    loadIdentityCards getQualifiedProfileName cards this = Ok c
    /\ length (connectionProfileRefs c)
       = Nat.max 1 (length (JsMap.keys (connectionProfileNames c))).
Proof.
  destruct (loadIdentityCards_run getQualifiedProfileName cards this)
    as (c & _ & E & _ & _ & _ & _ & _ & Hrefs).
  exists c. split; [assumption|]. rewrite Hrefs. simpl.
  rewrite length_map, <- (Permutation_length (isort_perm _ _)).
  destruct (order_split (JsMap.keys (connectionProfileNames c)))
    as [(l1 & l2 & Hks & _ & _ & ->)|(_ & _ & _ & ->)].
  - rewrite Hks, !length_app. simpl length.
    rewrite Nat.add_succ_r. simpl. reflexivity.
  - destruct (JsMap.keys (connectionProfileNames c)) as [|k ks];
      [reflexivity|].
    destruct (exists_last (l := k :: ks)) as (init & z & ->); [discriminate|].
    rewrite removelast_last, length_app. simpl length.
    rewrite Nat.add_1_r. reflexivity.
Qed.

Lemma loadIdentityCards_flags (cards : JsMap.t IdCard)
    (this : LoginComponent) :
  exists c,
    loadIdentityCards getQualifiedProfileName cards this = Ok c
    /\ idCards c = cards
    /\ usingLocally c = usingLocally this
    /\ showDeployNetwork c = showDeployNetwork this
    /\ editingConnectionProfile c = editingConnectionProfile this
    /\ creatingIdCard c = creatingIdCard this
    /\ showSubScreen c = showSubScreen this.
Proof.
  destruct (loadIdentityCards_run getQualifiedProfileName cards this)
    as (c & _ & E & Hi & _).
  exists c. split; [assumption|]. split; [assumption|].
  pose proof (loadIdentityCards_carry getQualifiedProfileName cards this this)
    as H.
  rewrite E in H. simpl in H. injection H as H.
  rewrite H. repeat split.
Qed.

(** X13: a run never throws, stores its input under [idCards] and leaves
    the flags of the component as they were. *)
Theorem loadIdentityCards_frame (cards : JsMap.t IdCard)
    (this : LoginComponent) :
  exists c,
    loadIdentityCards getQualifiedProfileName cards this = Ok c
    /\ idCards c = cards
    /\ usingLocally c = usingLocally this
    /\ showDeployNetwork c = showDeployNetwork this
    /\ editingConnectionProfile c = editingConnectionProfile this
    /\ creatingIdCard c = creatingIdCard this
    /\ showSubScreen c = showSubScreen this.
Proof.
  destruct (loadIdentityCards_flags cards this) as (c & H).
  exists c. exact H.
Qed.

End Profiles.

(** ** The sub screens *)

Section SubScreens.

Variable getQualifiedProfileName : ConnectionProfile -> string.
Variable getIdentityCardRefsWithProfileAndRole : string -> string -> list string.

Local Abbreviation load := (loadIdentityCards getQualifiedProfileName).
Local Abbreviation perform :=
  (perform getQualifiedProfileName getIdentityCardRefsWithProfileAndRole).
Local Abbreviation performAll :=
  (performAll getQualifiedProfileName getIdentityCardRefsWithProfileAndRole).
Local Abbreviation canDeploy :=
  (canDeploy getIdentityCardRefsWithProfileAndRole).
Local Abbreviation deployNetwork :=
  (deployNetwork getIdentityCardRefsWithProfileAndRole).

Lemma perform_keeps_deploy_inside (a : action) (this : LoginComponent) :
  (showDeployNetwork this = true -> showSubScreen this = true) ->
  exists this',
    perform a this = Ok this'
    /\ (showDeployNetwork this' = true -> showSubScreen this' = true).
Proof.
  intros Hinv.
  destruct a as [isWebOnly cards|cards|cp| | |event cards|ref|cards]; simpl.
  - unfold ngOnInit.
    destruct (loadIdentityCards_flags getQualifiedProfileName cards
                (set_usingLocally (negb isWebOnly) this))
      as (c & E & _ & _ & Hd & _ & _ & Hs).
    exists c. split; [assumption|]. rewrite Hd, Hs. exact Hinv.
  - destruct (loadIdentityCards_flags getQualifiedProfileName cards this)
      as (c & E & _ & _ & Hd & _ & _ & Hs).
    exists c. split; [assumption|]. rewrite Hd, Hs. exact Hinv.
  - eexists. split; [reflexivity|]. reflexivity.
  - eexists. split; [reflexivity|]. simpl. discriminate.
  - eexists. split; [reflexivity|]. reflexivity.
  - unfold finishedCardCreation. destruct event.
    + destruct (loadIdentityCards_flags getQualifiedProfileName cards
                  (closeSubView this)) as (c & E & _ & _ & Hd & _ & _ & Hs).
      exists c. split; [assumption|]. rewrite Hd. simpl. discriminate.
    + eexists. split; [reflexivity|]. simpl. discriminate.
  - eexists. split; [reflexivity|]. reflexivity.
  - unfold finishedDeploying.
    destruct (loadIdentityCards_flags getQualifiedProfileName cards
                (set_showDeployNetwork false (set_showSubScreen false this)))
      as (c & E & _ & _ & Hd & _ & _ & Hs).
    exists c. split; [assumption|]. rewrite Hd. simpl. discriminate.
Qed.

(** X14: whatever calls are made and in whatever order, none throws, and
    the deploy screen is never flagged without the sub screen being
    flagged too. *)
Theorem deploy_screen_inside_sub_screen (actions : list action)
    (this : LoginComponent) :
  (showDeployNetwork this = true -> showSubScreen this = true) ->
  exists this',
    performAll actions this = Ok this'
    /\ (showDeployNetwork this' = true -> showSubScreen this' = true).
Proof.
  revert this. induction actions as [|a actions IH]; intros this Hinv; simpl.
  - eauto.
  - destruct (perform_keeps_deploy_inside a this Hinv) as (this1 & -> & H1).
    simpl. apply IH. exact H1.
Qed.

(** X15: [finishedCardCreation] closes the sub view whatever the event
    is; a truthy event makes it leave what [loadIdentityCards] computes, a
    falsy one makes it leave the cards and profiles it had. *)
Theorem finishedCardCreation_closes (event : bool) (cards : JsMap.t IdCard)
    (this : LoginComponent) :
  exists c,
    finishedCardCreation getQualifiedProfileName event cards this = Ok c
    /\ showSubScreen c = false
    /\ showDeployNetwork c = false
    /\ creatingIdCard c = false
    /\ editingConnectionProfile c = None
    /\ if event
       then exists c0, load cards this = Ok c0 /\ c = carry (closeSubView this) c0
       else c = carry (closeSubView this) this.
Proof.
  unfold finishedCardCreation. destruct event.
  - destruct (loadIdentityCards_flags getQualifiedProfileName cards
                (closeSubView this)) as (c & E & _ & _ & Hd & He & Hc & Hs).
    exists c. split; [assumption|].
    repeat split; try assumption.
    destruct (loadIdentityCards_run getQualifiedProfileName cards this)
      as (c0 & _ & E0 & _).
    exists c0. split; [assumption|].
    rewrite (loadIdentityCards_carry _ cards (closeSubView this) this), E0 in E.
    simpl in E. now injection E as <-.
  - eexists. split; [reflexivity|]. repeat split.
Qed.

(** X16: [finishedDeploying] does not reset what [createIdCard] and
    [editConnectionProfile] set: after either of them it leaves the sub
    screen closed with [creatingIdCard], respectively the edited profile,
    still in place. *)
Theorem finishedDeploying_keeps_openers (cards : JsMap.t IdCard)
    (connectionProfile : option ConnectionProfile) (this : LoginComponent) :
  (exists c,
      finishedDeploying getQualifiedProfileName cards (createIdCard this)
      = Ok c
      /\ creatingIdCard c = true /\ showSubScreen c = false)
  /\ (exists c,
        finishedDeploying getQualifiedProfileName cards
          (editConnectionProfile connectionProfile this) = Ok c
        /\ editingConnectionProfile c = connectionProfile
        /\ showSubScreen c = false).
Proof.
  unfold finishedDeploying. split.
  - destruct (loadIdentityCards_flags getQualifiedProfileName cards
                (set_showDeployNetwork false
                   (set_showSubScreen false (createIdCard this))))
      as (c & E & _ & _ & _ & _ & Hc & Hs).
    exists c. repeat split; assumption.
  - destruct (loadIdentityCards_flags getQualifiedProfileName cards
                (set_showDeployNetwork false
                   (set_showSubScreen false
                      (editConnectionProfile connectionProfile this))))
      as (c & E & _ & _ & _ & He & _ & Hs).
    exists c. repeat split; assumption.
Qed.

Lemma first_truthy (l : list string) :
  truthy (ofString (JsArray.at_ l 0)) = true
  <-> exists x rest, l = x :: rest /\ x <> ""%string.
Proof.
  destruct l as [|x rest]; simpl.
  - split; [discriminate | intros (x & rest & E & _); discriminate].
  - change (JsArray.at_ (x :: rest) 0) with (Some x). simpl.
    rewrite negb_true_iff, String.eqb_neq. split.
    + intros H. now exists x, rest.
    + intros (y & r & [= <- <-] & H). exact H.
Qed.

Lemma canDeploy_true (connectionProfileRef : string) :
  canDeploy connectionProfileRef = true
  <-> (exists peer rest,
          getIdentityCardRefsWithProfileAndRole connectionProfileRef
            "PeerAdmin" = peer :: rest /\ peer <> ""%string)
      /\ (exists channel rest,
            getIdentityCardRefsWithProfileAndRole connectionProfileRef
              "ChannelAdmin" = channel :: rest /\ channel <> ""%string).
Proof.
  rewrite <- !first_truthy. unfold canDeploy.
  destruct (truthy (ofString (JsArray.at_ _ 0))); simpl;
    [|split; [discriminate | intros [H _]; discriminate]].
  destruct (truthy (ofString (JsArray.at_ _ 0))); simpl;
    [tauto | split; [discriminate | intros [_ H]; discriminate]].
Qed.

(** X17: [canDeploy] answers [true] exactly when the service lists a
    first peer administrator card and a first channel administrator card
    for the profile, neither of them the empty string. *)
Theorem canDeploy_iff (connectionProfileRef : string) :
  canDeploy connectionProfileRef = true
  <-> (exists peer rest,
          getIdentityCardRefsWithProfileAndRole connectionProfileRef
            "PeerAdmin" = peer :: rest /\ peer <> ""%string)
      /\ (exists channel rest,
            getIdentityCardRefsWithProfileAndRole connectionProfileRef
              "ChannelAdmin" = channel :: rest /\ channel <> ""%string).
Proof.
  split; intros H.
  - now apply canDeploy_true.
  - now apply canDeploy_true.
Qed.

(** X18: where [canDeploy] answers [true], [deployNetwork] hands a card
    reference that is not empty, the first peer administrator card, to
    [setCurrentIdentityCard], and flags the deploy screen and the sub
    screen. *)
Theorem canDeploy_guards_deployNetwork (connectionProfileRef : string)
    (this : LoginComponent) :
  canDeploy connectionProfileRef = true ->
  exists peer rest,
    getIdentityCardRefsWithProfileAndRole connectionProfileRef "PeerAdmin"
    = peer :: rest
    /\ peer <> ""%string
    /\ fst (deployNetwork connectionProfileRef this) = Some peer
    /\ showDeployNetwork (snd (deployNetwork connectionProfileRef this)) = true
    /\ showSubScreen (snd (deployNetwork connectionProfileRef this)) = true.
Proof.
  intros H. apply canDeploy_true in H.
  destruct H as [(peer & rest & E & Hne) _].
  exists peer, rest. unfold deployNetwork. rewrite E.
  repeat split; assumption.
Qed.

End SubScreens.

Lemma deploy_screen_inside_sub_screen_witness :
  (showDeployNetwork blank = true -> showSubScreen blank = true)
  /\ exists this',
       performAll qualifiedProfileName sampleRoleRefs
         [CreateIdCard; DeployNetwork "hlfv1-Org A profile";
          FinishedDeploying exCards; EditConnectionProfile (Some orgA)] blank
       = Ok this'
       /\ (showDeployNetwork this' = true -> showSubScreen this' = true).
Proof.
  assert (H : showDeployNetwork blank = true -> showSubScreen blank = true)
    by (simpl; discriminate).
  split; [exact H|].
  exact (deploy_screen_inside_sub_screen qualifiedProfileName sampleRoleRefs
           _ blank H).
Defined.

Lemma canDeploy_guards_deployNetwork_witness :
  canDeploy sampleRoleRefs "hlfv1-Org A profile" = true
  /\ exists peer rest,
       sampleRoleRefs "hlfv1-Org A profile" "PeerAdmin" = peer :: rest
       /\ peer <> ""%string
       /\ fst (deployNetwork sampleRoleRefs "hlfv1-Org A profile" blank)
          = Some peer
       /\ showDeployNetwork
            (snd (deployNetwork sampleRoleRefs "hlfv1-Org A profile" blank))
          = true
       /\ showSubScreen
            (snd (deployNetwork sampleRoleRefs "hlfv1-Org A profile" blank))
          = true.
Proof.
  assert (H : canDeploy sampleRoleRefs "hlfv1-Org A profile" = true)
    by reflexivity.
  split; [exact H|].
  exact (canDeploy_guards_deployNetwork sampleRoleRefs
           "hlfv1-Org A profile" blank H).
Defined.

Lemma groups_stable_witness :
  NoDup (JsMap.keys tieCards)
  /\ exists c,
       loadIdentityCards qualifiedProfileName tieCards blank = Ok c
       /\ forall p group a b,
            In (p, group) (idCardRefs c) -> In a group -> In b group ->
            sortIdCards tieCards a b = Ok None ->
            before a b (JsMap.keys tieCards) -> before a b group.
Proof.
  assert (H : NoDup (JsMap.keys tieCards))
    by (repeat constructor; simpl; intuition discriminate).
  split; [exact H|].
  exact (groups_stable qualifiedProfileName tieCards blank H).
Defined.

Lemma first_card_decides_profile_witness :
  NoDup (JsMap.keys exCards)
  /\ exists c,
       loadIdentityCards qualifiedProfileName exCards blank = Ok c
       /\ JsMap.get (connectionProfileNames c) (qualifiedProfileName web)
          = Some (name web)
       /\ JsMap.get (connectionProfiles c) (qualifiedProfileName web)
          = Some web.
Proof.
  split; [exact exCards_keys_NoDup|].
  refine (first_card_decides_profile qualifiedProfileName exCards
            (firstn 2 exCards) [] "c3"
            (mkIdCard (Some "eve") None (Some []) web) blank
            exCards_keys_NoDup eq_refl _).
  intros e [<-|[<-|[]]]; discriminate.
Defined.

Lemma profile_order_permutation_with_web_witness :
  (exists cardRef card,
      JsMap.get exCards cardRef = Some card
      /\ qualifiedProfileName (getConnectionProfile card) = webDefault)
  /\ exists c,
       loadIdentityCards qualifiedProfileName exCards blank = Ok c
       /\ Permutation (connectionProfileRefs c)
            (map Some (JsMap.keys (connectionProfileNames c)))
       /\ NoDup (connectionProfileRefs c).
Proof.
  assert (H : exists cardRef card,
             JsMap.get exCards cardRef = Some card
             /\ qualifiedProfileName (getConnectionProfile card) = webDefault).
  { exists "c3"%string, (mkIdCard (Some "eve") None (Some []) web).
    split; reflexivity. }
  split; [exact H|].
  exact (profile_order_permutation_with_web qualifiedProfileName exCards
           blank H).
Defined.

(** ** Cards without roles *)



